(** * Lock-free queues of salticidae (include/salticidae/queue.h)

    Shallow embedding of [FreeList], [MPMCQueue<T>] and [MPSCQueue<T>].

    Two models of the same code are given:
    - [Seq]: every method as a function on the shared state, in a small
      state-and-failure monad; it describes a call that runs alone (no other
      thread interleaves), which is how the sequential laws are stated.
    - [Conc]: a small-step interleaving semantics in which every atomic
      access (and every non-atomic access to a payload) is one step of one
      thread; a schedule picks the thread of each step.

    Memory is a [gmap] from addresses to [Block]s.  A [Block] has BOTH next
    fields of the source: [FreeList::Node::next] ([node_next]) and the
    field [MPMCQueue::Block::next] ([block_next]) that the derived struct
    declares again and that hides the first one in queue code.  [size_t]
    counters are integers modulo 2^64. *)

From Stdlib Require Import ZArith.
From stdpp Require Import base gmap list option.

(** The element type: [T()] (value-initialisation in [new Block()]) and the
    value left in the source of [x = std::move(src)]. *)
Class Elem (T : Type) := {
  elem_init : T;
  elem_moved : T -> T
}.

(** [int]: value 0 by default, moving is copying. *)
#[global] Instance Elem_Z : Elem Z := {| elem_init := 0%Z; elem_moved := fun z => z |}.

(** [std::unique_ptr<int>]: [None] is the null pointer; [T()] is null, and
    a move leaves its source null. *)
#[global] Instance Elem_unique_ptr : Elem (option Z) | 100 :=
  {| elem_init := None; elem_moved := fun _ => None |}.

(** Addresses; [None : option loc] is [nullptr]. *)
Definition loc := N.

(** [size_t] arithmetic. *)
Definition wrap (z : Z) : Z := z mod 2 ^ 64.

Section Model.
Context {T : Type} `{!Elem T}.

(** [FreeList::Node] together with the fields [MPMCQueue::Block] adds. *)
Record Block := mkBlock {
  node_next : option loc;   (* FreeList::Node::next *)
  refcnt : Z;               (* FreeList::Node::refcnt *)
  elem : T;                 (* MPMCQueue::Block::elem *)
  block_next : option loc   (* MPMCQueue::Block::next *)
}.

Definition set_node_next (p : option loc) (b : Block) : Block :=
  mkBlock p (refcnt b) (elem b) (block_next b).
Definition set_refcnt (r : Z) (b : Block) : Block :=
  mkBlock (node_next b) r (elem b) (block_next b).
Definition set_elem (v : T) (b : Block) : Block :=
  mkBlock (node_next b) (refcnt b) v (block_next b).
Definition set_block_next (p : option loc) (b : Block) : Block :=
  mkBlock (node_next b) (refcnt b) (elem b) p.

(** [new Block()]: [Node()] sets [next(nullptr), refcnt(1)]; the value
    initialisation zeroes [Block::next] and builds [T()]. *)
Definition new_block : Block := mkBlock None 1 elem_init None.

(** The shared state of one queue object: its free list [blks] (field
    [top]), [head], [tail], and the heap with the allocator's next address. *)
Record St := mkSt {
  heap : gmap loc Block;
  top : option loc;
  head : loc;
  tail : loc;
  next_loc : loc
}.

Definition set_heap (m : gmap loc Block) (s : St) : St :=
  mkSt m (top s) (head s) (tail s) (next_loc s).
Definition set_top (p : option loc) (s : St) : St :=
  mkSt (heap s) p (head s) (tail s) (next_loc s).
Definition set_head (h : loc) (s : St) : St :=
  mkSt (heap s) (top s) h (tail s) (next_loc s).
Definition set_tail (t : loc) (s : St) : St :=
  mkSt (heap s) (top s) (head s) t (next_loc s).

End Model.

Arguments Block T : clear implicits.
Arguments St T : clear implicits.

(** ** Sequential model *)
Module Seq.
Section Prims.
Context {T : Type} `{!Elem T}.

(** A call either returns a value and a new state, or goes wrong ([None]):
    a dereference of an address that holds no block, or a loop that runs
    out of the iteration bound [fuel]. *)
Definition M (T A : Type) := St T -> option (A * St T).

Definition ret {A : Type} (a : A) : M T A := fun s => Some (a, s).
Definition bind {A B : Type} (m : M T A) (f : A -> M T B) : M T B :=
  fun s => match m s with Some (a, s') => f a s' | None => None end.

End Prims.

Notation "'let!' x ':=' m 'in' k" := (bind m (fun x => k))
  (at level 200, x name, m at level 100, k at level 200, right associativity).

Section Prims2.
Context {T : Type} `{!Elem T}.

Definition load (l : loc) : M T (Block T) :=
  fun s => match heap s !! l with Some b => Some (b, s) | None => None end.
Definition modify (l : loc) (f : Block T -> Block T) : M T unit :=
  fun s => match heap s !! l with
           | Some b => Some (tt, set_heap (<[l := f b]> (heap s)) s)
           | None => None
           end.
Definition get {A : Type} (f : St T -> A) : M T A := fun s => Some (f s, s).
Definition put (f : St T -> St T) : M T unit := fun s => Some (tt, f s).

(** [new Block()]: a fresh address. *)
Definition alloc : M T loc :=
  fun s => Some (next_loc s,
                 mkSt (<[next_loc s := new_block]> (heap s)) (top s) (head s)
                      (tail s) (next_loc s + 1)%N).

(** atomic accesses *)
Definition load_refcnt (l : loc) : M T Z := let! b := load l in ret (refcnt b).
Definition store_refcnt (l : loc) (r : Z) : M T unit := modify l (set_refcnt r).
Definition fetch_sub_refcnt (l : loc) : M T Z :=
  let! b := load l in
  let! _ := modify l (set_refcnt (wrap (refcnt b - 1))) in
  ret (refcnt b).
Definition cas_refcnt (l : loc) (expected desired : Z) : M T bool :=
  let! b := load l in
  if Z.eqb (refcnt b) expected
  then let! _ := modify l (set_refcnt desired) in ret true
  else ret false.
Definition load_node_next (l : loc) : M T (option loc) :=
  let! b := load l in ret (node_next b).
Definition store_node_next (l : loc) (p : option loc) : M T unit :=
  modify l (set_node_next p).
Definition load_block_next (l : loc) : M T (option loc) :=
  let! b := load l in ret (block_next b).
Definition store_block_next (l : loc) (p : option loc) : M T unit :=
  modify l (set_block_next p).
Definition load_top : M T (option loc) := get top.
Definition cas_top (expected desired : option loc) : M T bool :=
  let! t := get top in
  if decide (t = expected)
  then let! _ := put (set_top desired) in ret true
  else ret false.
Definition load_head : M T loc := get head.
Definition store_head (h : loc) : M T unit := put (set_head h).
(** [head.compare_exchange_weak(hh, nh)] in an attempt that does not fail
    spuriously. *)
Definition cas_head (expected desired : loc) : M T bool :=
  let! h := get head in
  if decide (h = expected)
  then let! _ := put (set_head desired) in ret true
  else ret false.
(** [head.compare_exchange_weak(hh, nh)] may also fail while [head] holds
    [hh] (a spurious failure).  The head of [sp] says whether this attempt
    fails spuriously and the rest of [sp] is returned for the next attempts;
    once [sp] is used up no attempt fails spuriously. *)
Definition cas_head_weak (sp : list bool) (expected desired : loc)
    : M T (bool * list bool) :=
  match sp with
  | true :: sp' => ret (false, sp')
  | false :: sp' => let! ok := cas_head expected desired in ret (ok, sp')
  | [] => let! ok := cas_head expected desired in ret (ok, [])
  end.
Definition exchange_tail (n : loc) : M T loc :=
  let! t := get tail in let! _ := put (set_tail n) in ret t.

(** non-atomic payload accesses *)
Definition construct_elem (l : loc) (v : T) : M T unit := modify l (set_elem v).
Definition move_elem (l : loc) : M T T :=
  let! b := load l in
  let! _ := modify l (set_elem (elem_moved (elem b))) in
  ret (elem b).


(** [for (;;)] / [while (loop)]: the body returns [inl] to go round again
    (with the new values of the loop's locals) and [inr] to leave. *)
Fixpoint loop {L A : Type} (n : nat) (body : L -> M T (L + A)) (l : L) : M T A :=
  match n with
  | O => fun _ => None
  | S n' =>
      let! r := body l in
      match r with inl l' => loop n' body l' | inr a => ret a end
  end.

End Prims2.

Module FreeList.
Section FreeList.
Context {T : Type} `{!Elem T}.
Variable fuel : nat.

Definition release_ref (u : loc) : M T unit :=
  let! prior := fetch_sub_refcnt u in
  if negb (Z.eqb prior 1) then ret tt else
  loop (A := unit) fuel (fun _ : unit =>
    let! t := load_top in
    (* repair the next pointer before CAS *)
    let! _ := store_node_next u t in
    let! ok := cas_top t (Some u) in
    if ok then let! _ := store_refcnt u 1 in ret (inr tt)
    else ret (inl tt)) tt.

Definition push (u : loc) : M T bool := let! _ := release_ref u in ret true.

(** [bool pop(Node *&r)]: [Some u] is [true] with [r = u]. *)
Definition pop : M T (option loc) :=
  loop (A := option loc) fuel (fun _ : unit =>
    let! u := load_top in
    match u with
    | None => ret (inr None)
    | Some u =>
        let! t := load_refcnt u in
        if Z.eqb t 0 then ret (inl tt) else
        let! ok := cas_refcnt u t (wrap (t + 1)) in
        if ok then
          let! nv := load_node_next u in
          let! won := cas_top (Some u) nv in
          let! _ := release_ref u in
          if won then ret (inr (Some u)) else ret (inl tt)
        else ret (inl tt)
    end) tt.

End FreeList.
End FreeList.

Module MPMCQueue.
Section MPMCQueue.
Context {T : Type} `{!Elem T}.
Variable fuel : nat.
Local Abbreviation release_ref := (FreeList.release_ref fuel).
Local Abbreviation push := (FreeList.push fuel).
Local Abbreviation pop := (FreeList.pop fuel).

Definition _enqueue (nblk : loc) (e : T) : M T unit :=
  let! _ := construct_elem nblk e in
  let! _ := store_block_next nblk None in
  let! prev := exchange_tail nblk in
  store_block_next prev (Some nblk).

Definition enqueue (e : T) : M T bool :=
  let! r := pop in
  let! nblk := match r with Some n => ret n | None => alloc end in
  let! _ := _enqueue nblk e in
  ret true.

Definition try_enqueue (e : T) : M T bool :=
  let! r := pop in
  match r with
  | None => ret false
  | Some nblk => let! _ := _enqueue nblk e in ret true
  end.

(** [bool try_dequeue(T &e)]: the result pairs the returned bool with the
    final value of the caller's variable [e]. *)
(** One round of the [for (;;)] loop: [inl e] is another round with the
    current value of [e], [inr r] returns [r]. *)
Definition try_dequeue_body (e : T) : M T (T + (bool * T)) :=
    let! h := load_head in
    let! t := load_refcnt h in
    if Z.eqb t 0 then ret (inl e) else
    let! ok := cas_refcnt h t (wrap (t + 1)) in
    if ok then
      let! nh := load_block_next h in
      match nh with
      | None => let! _ := release_ref h in ret (inr (false, e))
      | Some nh =>
          let! e := move_elem nh in
          let! won := cas_head h nh in
          if won then
            let! _ := release_ref h in
            let! _ := push h in
            ret (inr (true, e))
          else let! _ := release_ref h in ret (inl e)
      end
    else ret (inl e).

Definition try_dequeue (e : T) : M T (bool * T) := loop fuel try_dequeue_body e.

(** The same loop with the spurious failures of its
    [head.compare_exchange_weak] given by [sp] (see [cas_head_weak]); the
    loop carries [e] and what is left of [sp].  [try_dequeue] is the case
    [sp = []], in which no attempt fails spuriously. *)
Definition try_dequeue_weak_body (st : T * list bool)
    : M T ((T * list bool) + (bool * T)) :=
    let '(e, sp) := st in
    let! h := load_head in
    let! t := load_refcnt h in
    if Z.eqb t 0 then ret (inl (e, sp)) else
    let! ok := cas_refcnt h t (wrap (t + 1)) in
    if ok then
      let! nh := load_block_next h in
      match nh with
      | None => let! _ := release_ref h in ret (inr (false, e))
      | Some nh =>
          let! e := move_elem nh in
          let! r := cas_head_weak sp h nh in
          let '(won, sp) := r in
          if won then
            let! _ := release_ref h in
            let! _ := push h in
            ret (inr (true, e))
          else let! _ := release_ref h in ret (inl (e, sp))
      end
    else ret (inl (e, sp)).

Definition try_dequeue_weak (sp : list bool) (e : T) : M T (bool * T) :=
  loop fuel try_dequeue_weak_body (e, sp).

(** [while (capacity--) blks.push(new Block());] *)
Fixpoint fill (capacity : nat) : M T unit :=
  match capacity with
  | O => ret tt
  | S c => let! b := alloc in let! _ := push b in fill c
  end.

(** [MPMCQueue(size_t capacity)]: [head(new Block()), tail(head.load())],
    [head.load()->next = nullptr], then the pool. *)
Definition construct (capacity : nat) : M T unit :=
  let! h := alloc in
  let! _ := put (set_head h) in
  let! _ := put (set_tail h) in
  let! _ := store_block_next h None in
  fill capacity.

Definition empty_state : St T := mkSt ∅ None 0%N 0%N 0%N.

Definition create (capacity : nat) : option (St T) :=
  snd <$> construct capacity empty_state.




End MPMCQueue.
End MPMCQueue.

Module MPSCQueue.
Section MPSCQueue.
Context {T : Type} `{!Elem T}.
Variable fuel : nat.
Local Abbreviation push := (FreeList.push fuel).
Local Abbreviation pop := (FreeList.pop fuel).

Definition try_dequeue (e : T) : M T (bool * T) :=
  let! h := load_head in
  let! nh := load_block_next h in
  match nh with
  | None => ret (false, e)
  | Some nh =>
      let! e := move_elem nh in
      let! _ := store_head nh in
      let! _ := push h in
      ret (true, e)
  end.

Definition rewind (e : T) : M T bool :=
  let! r := pop in
  let! nblk := match r with Some n => ret n | None => alloc end in
  let! h := load_head in
  let! _ := construct_elem h e in
  let! _ := store_block_next nblk (Some h) in
  let! _ := store_head nblk in
  ret true.

End MPSCQueue.
End MPSCQueue.

(** A single client thread: [for (v : vs) q.enqueue(v);], and [k] calls of
    [T x; q.try_dequeue(x);], each on a default-constructed [x]. *)
Module Client.
Section Client.
Context {T : Type} `{!Elem T}.
Variable fuel : nat.

Fixpoint enqueue_all (vs : list T) : M T unit :=
  match vs with
  | [] => ret tt
  | v :: vs' => let! _ := MPMCQueue.enqueue fuel v in enqueue_all vs'
  end.

Fixpoint dequeue_n (k : nat) : M T (list (bool * T)) :=
  match k with
  | O => ret []
  | S k' =>
      let! r := MPMCQueue.try_dequeue fuel elem_init in
      let! rs := dequeue_n k' in
      ret (r :: rs)
  end.

End Client.
End Client.

(** A single thread calling the methods of an [MPSCQueue<T>] object: the
    ones it inherits from [MPMCQueue<T>] (the base [try_dequeue] called as
    [q.MPMCQueue<T>::try_dequeue(x)]) and the two it adds.  Every
    [try_dequeue] gets a default-constructed [T x].  In these runs no
    [head.compare_exchange_weak] fails spuriously ([try_dequeue_weak] with
    no spurious failure). *)
Module Calls.
Section Calls.
Context {T : Type} `{!Elem T}.
Variable fuel : nat.

Inductive call :=
| Enqueue (v : T)
| TryEnqueue (v : T)
| TryDequeue
| MpscTryDequeue
| Rewind (v : T).

Inductive reply := Done (b : bool) | Got (r : bool * T).

Definition call_method (c : call) : M T reply :=
  match c with
  | Enqueue v => let! b := MPMCQueue.enqueue fuel v in ret (Done b)
  | TryEnqueue v => let! b := MPMCQueue.try_enqueue fuel v in ret (Done b)
  | TryDequeue => let! r := MPMCQueue.try_dequeue_weak fuel [] elem_init in ret (Got r)
  | MpscTryDequeue => let! r := MPSCQueue.try_dequeue fuel elem_init in ret (Got r)
  | Rewind v => let! b := MPSCQueue.rewind fuel v in ret (Done b)
  end.

Fixpoint run_calls (cs : list call) : M T (list reply) :=
  match cs with
  | [] => ret []
  | c :: cs' =>
      let! r := call_method c in
      let! rs := run_calls cs' in
      ret (r :: rs)
  end.

End Calls.
Arguments call T : clear implicits.
Arguments reply T : clear implicits.
End Calls.

End Seq.

(** ** Concurrent model

    The same code as in [Seq], in which every access of [Seq]'s primitives
    ([load_top], [cas_refcnt], [move_elem], [alloc], ...) is one step of the
    thread that runs it.  A thread's remaining code is a [prog]: finished
    with a value, about to perform one access and go on with its result, or
    gone wrong (a loop that ran out of its iteration bound).  A
    configuration is the shared state and one [prog] per thread; a schedule
    lists the thread that takes each step.  Every access is sequentially
    consistent, the strongest reading of the memory orders of the source. *)
Module Conc.
Section Prog.
Context {T : Type}.

Inductive prog (A : Type) : Type :=
| Ret (a : A)
| Act (X : Type) (m : Seq.M T X) (k : X -> prog A)
| Wrong.

Arguments Ret {A} a.
Arguments Act {A X} m k.
Arguments Wrong {A}.

Fixpoint bind {A B : Type} (p : prog A) (f : A -> prog B) : prog B :=
  match p with
  | Ret a => f a
  | Act m k => Act m (fun x => bind (k x) f)
  | Wrong => Wrong
  end.

Definition ret {A : Type} (a : A) : prog A := Ret a.

(** One access of the sequential model as one step. *)
Definition atom {X : Type} (m : Seq.M T X) : prog X := Act m Ret.

End Prog.

Arguments prog T A : clear implicits.
Arguments Ret {T A} a.
Arguments Act {T A X} m k.
Arguments Wrong {T A}.

Notation "'let!' x ':=' m 'in' k" := (bind m (fun x => k))
  (at level 200, x name, m at level 100, k at level 200, right associativity).

Section Prims.
Context {T : Type} `{!Elem T}.

Definition load_refcnt (l : loc) : prog T Z := atom (Seq.load_refcnt l).
Definition store_refcnt (l : loc) (r : Z) : prog T unit := atom (Seq.store_refcnt l r).
Definition fetch_sub_refcnt (l : loc) : prog T Z := atom (Seq.fetch_sub_refcnt l).
Definition cas_refcnt (l : loc) (expected desired : Z) : prog T bool :=
  atom (Seq.cas_refcnt l expected desired).
Definition load_node_next (l : loc) : prog T (option loc) := atom (Seq.load_node_next l).
Definition store_node_next (l : loc) (p : option loc) : prog T unit :=
  atom (Seq.store_node_next l p).
Definition load_block_next (l : loc) : prog T (option loc) := atom (Seq.load_block_next l).
Definition store_block_next (l : loc) (p : option loc) : prog T unit :=
  atom (Seq.store_block_next l p).
Definition load_top : prog T (option loc) := atom Seq.load_top.
Definition cas_top (expected desired : option loc) : prog T bool :=
  atom (Seq.cas_top expected desired).
Definition load_head : prog T loc := atom Seq.load_head.
Definition cas_head (expected desired : loc) : prog T bool :=
  atom (Seq.cas_head expected desired).
Definition exchange_tail (n : loc) : prog T loc := atom (Seq.exchange_tail n).
Definition construct_elem (l : loc) (v : T) : prog T unit := atom (Seq.construct_elem l v).
Definition move_elem (l : loc) : prog T T := atom (Seq.move_elem l).
Definition alloc : prog T loc := atom Seq.alloc.

Fixpoint loop {L A : Type} (n : nat) (body : L -> prog T (L + A)) (l : L) : prog T A :=
  match n with
  | O => Wrong
  | S n' =>
      let! r := body l in
      match r with inl l' => loop n' body l' | inr a => ret a end
  end.

End Prims.

Module FreeList.
Section FreeList.
Context {T : Type} `{!Elem T}.
Variable fuel : nat.

Definition release_ref (u : loc) : prog T unit :=
  let! prior := fetch_sub_refcnt u in
  if negb (Z.eqb prior 1) then ret tt else
  loop (A := unit) fuel (fun _ : unit =>
    let! t := load_top in
    let! _ := store_node_next u t in
    let! ok := cas_top t (Some u) in
    if ok then let! _ := store_refcnt u 1 in ret (inr tt)
    else ret (inl tt)) tt.

Definition push (u : loc) : prog T bool := let! _ := release_ref u in ret true.

Definition pop : prog T (option loc) :=
  loop (A := option loc) fuel (fun _ : unit =>
    let! u := load_top in
    match u with
    | None => ret (inr None)
    | Some u =>
        let! t := load_refcnt u in
        if Z.eqb t 0 then ret (inl tt) else
        let! ok := cas_refcnt u t (wrap (t + 1)) in
        if ok then
          let! nv := load_node_next u in
          let! won := cas_top (Some u) nv in
          let! _ := release_ref u in
          if won then ret (inr (Some u)) else ret (inl tt)
        else ret (inl tt)
    end) tt.

End FreeList.
End FreeList.

Module MPMCQueue.
Section MPMCQueue.
Context {T : Type} `{!Elem T}.
Variable fuel : nat.
Local Abbreviation release_ref := (FreeList.release_ref fuel).
Local Abbreviation push := (FreeList.push fuel).
Local Abbreviation pop := (FreeList.pop fuel).

Definition _enqueue (nblk : loc) (e : T) : prog T unit :=
  let! _ := construct_elem nblk e in
  let! _ := store_block_next nblk None in
  let! prev := exchange_tail nblk in
  store_block_next prev (Some nblk).

Definition enqueue (e : T) : prog T bool :=
  let! r := pop in
  let! nblk := match r with Some n => ret n | None => alloc end in
  let! _ := _enqueue nblk e in
  ret true.

Definition try_dequeue (e : T) : prog T (bool * T) :=
  loop fuel (fun e : T =>
    let! h := load_head in
    let! t := load_refcnt h in
    if Z.eqb t 0 then ret (inl e) else
    let! ok := cas_refcnt h t (wrap (t + 1)) in
    if ok then
      let! nh := load_block_next h in
      match nh with
      | None => let! _ := release_ref h in ret (inr (false, e))
      | Some nh =>
          let! e := move_elem nh in
          let! won := cas_head h nh in
          if won then
            let! _ := release_ref h in
            let! _ := push h in
            ret (inr (true, e))
          else let! _ := release_ref h in ret (inl e)
      end
    else ret (inl e)) e.

End MPMCQueue.
End MPMCQueue.

(** Client threads: each runs a script of [enqueue(v)] and
    [T x; try_dequeue(x)] calls and returns what every call returned. *)
Section Clients.
Context {T : Type} `{!Elem T}.
Variable fuel : nat.

Inductive op := Enq (v : T) | Deq.
Inductive outcome := Enqueued (b : bool) | Dequeued (r : bool * T).

Fixpoint client (ops : list op) : prog T (list outcome) :=
  match ops with
  | [] => ret []
  | o :: ops' =>
      let! r := match o with
                | Enq v => let! b := MPMCQueue.enqueue fuel v in ret (Enqueued b)
                | Deq => let! r := MPMCQueue.try_dequeue fuel elem_init in
                         ret (Dequeued r)
                end in
      let! rs := client ops' in
      ret (r :: rs)
  end.

Record Conf := mkConf {
  shared : St T;
  threads : list (prog T (list outcome))
}.

(** Thread [i] performs its next access; a thread that has finished or
    gone wrong, and an access that goes wrong, cannot step. *)
Definition step (i : nat) (c : Conf) : option Conf :=
  match threads c !! i with
  | Some (Act m k) =>
      match m (shared c) with
      | Some (x, s') => Some (mkConf s' (<[i := k x]> (threads c)))
      | None => None
      end
  | _ => None
  end.

Fixpoint run (sched : list nat) (c : Conf) : option Conf :=
  match sched with
  | [] => Some c
  | i :: sched' => match step i c with Some c' => run sched' c' | None => None end
  end.

(** [MPMCQueue q(capacity);], run alone as in [Seq], then one thread per
    script. *)
Definition init (capacity : nat) (scripts : list (list op)) : option Conf :=
  match Seq.MPMCQueue.create fuel capacity with
  | Some s => Some (mkConf s (client <$> scripts))
  | None => None
  end.

(** The history of a run in which every thread has finished: each call
    with what it returned. *)
Definition history (scripts : list (list op)) (c : Conf) : option (list (op * outcome)) :=
  (fix go (ss : list (list op)) (ps : list (prog T (list outcome))) :=
     match ss, ps with
     | [], [] => Some []
     | s :: ss', Ret rs :: ps' =>
         if Nat.eqb (length s) (length rs)
         then match go ss' ps' with Some h => Some (zip s rs ++ h) | None => None end
         else None
     | _, _ => None
     end) scripts (threads c).

(** The refcount of block [l]. *)
Definition refcnt_at (c : Conf) (l : loc) : option Z := refcnt <$> heap (shared c) !! l.

End Clients.

Arguments op T : clear implicits.
Arguments outcome T : clear implicits.
Arguments Conf T : clear implicits.

(** The sequential FIFO queue: [fifo_legal q h] holds when the calls of [h],
    performed one at a time in that order on a queue holding [q], return
    what [h] records ([enqueue] always succeeds and appends; [try_dequeue]
    returns [false] exactly on the empty queue and otherwise the oldest
    element). *)
Section Fifo.
Context {T : Type} `{!EqDecision T}.

Fixpoint fifo_legal (q : list T) (h : list (op T * outcome T)) : bool :=
  match h with
  | [] => true
  | (Enq v, Enqueued true) :: h' => fifo_legal (q ++ [v]) h'
  | (Deq, Dequeued (true, v)) :: h' =>
      match q with
      | x :: q' => bool_decide (x = v) && fifo_legal q' h'
      | [] => false
      end
  | (Deq, Dequeued (false, _)) :: h' =>
      match q with [] => fifo_legal [] h' | _ :: _ => false end
  | _ => false
  end.

(** Calls in [h] that enqueue [v], and calls that dequeue [v]. *)
Definition is_enq_of (v : T) (e : op T * outcome T) : bool :=
  match e with (Enq w, _) => bool_decide (w = v) | _ => false end.
Definition is_deq_of (v : T) (e : op T * outcome T) : bool :=
  match e with (_, Dequeued (true, w)) => bool_decide (w = v) | _ => false end.
Definition enq_count (v : T) (h : list (op T * outcome T)) : nat :=
  length (List.filter (is_enq_of v) h).
Definition deq_count (v : T) (h : list (op T * outcome T)) : nat :=
  length (List.filter (is_deq_of v) h).

(** A history is linearizable only if some order of its calls is legal for
    the FIFO queue started empty. *)
Definition has_fifo_order (h : list (op T * outcome T)) : Prop :=
  exists lin, lin ≡ₚ h /\ fifo_legal [] lin = true.

End Fifo.

End Conc.

(** Two runs of the concurrent model, found by a search over schedules. *)
Module ConcTests.
Import Conc.

(** [bursts [(i, n); ...]]: thread [i] takes [n] steps, and so on. *)
Fixpoint bursts (l : list (nat * nat)) : list nat :=
  match l with [] => [] | (i, n) :: l' => repeat i n ++ bursts l' end.

(** Bound of every loop of the runs below. *)
Definition conc_fuel : nat := 10.

(** An [MPMCQueue<int>] of capacity 0; thread 0 enqueues 1, dequeues,
    enqueues 2, dequeues; thread 1 dequeues once.  Thread 1 reads [head] and
    its refcount, then stalls while thread 0 recycles the dummy block: the
    refcount CAS and the [head] CAS of thread 1 both succeed on the
    recycled block. *)
Definition dup_scripts : list (list (op Z)) :=
  [[Enq 1%Z; Deq; Enq 2%Z; Deq]; [Deq]].
Definition dup_schedule : list nat :=
  bursts [(1, 1); (0, 18); (1, 4); (0, 16); (1, 7); (0, 6)].
Definition dup_final : Conf Z := Eval vm_compute in
  match init conc_fuel 0 dup_scripts ≫= run dup_schedule with
  | Some c => c
  | None => mkConf Seq.MPMCQueue.empty_state []
  end.

(** An [MPMCQueue<int>] of capacity 1; thread 0 dequeues once, thread 1
    enqueues 1, dequeues, enqueues 2, dequeues; thread 2 dequeues once. *)
Definition fs0_scripts : list (list (op Z)) :=
  [[Deq]; [Enq 1%Z; Deq; Enq 2%Z; Deq]; [Deq]].
Definition fs0_schedule : list nat :=
  bursts [(2, 2); (1, 29); (2, 2); (1, 10); (2, 2); (0, 7); (1, 1)].

End ConcTests.

(** * Sequential invariant

    The views of the heap used to state what a queue holds: the queue link
    [Block::next], the pool link [Node::next] and the payload of every block.
    A quiet queue holding [vs] is a [Block::next] chain from [head] to [tail]
    whose blocks after the dummy [head] carry [vs], and a [Node::next] chain
    from [top] through the pool; no block is on both chains or twice on one,
    every block has refcount 1 and lies below the allocation cursor. *)
Module Inv.
Section Views.
Context {T : Type}.

Fixpoint qchain (nx : gmap loc (option loc)) (x : loc) (ns : list loc) : Prop :=
  match ns with
  | [] => nx !! x = Some None
  | n :: ns' => nx !! x = Some (Some n) /\ qchain nx n ns'
  end.

Fixpoint fchain (nn : gmap loc (option loc)) (p : option loc) (fs : list loc) : Prop :=
  match fs with
  | [] => p = None
  | f :: fs' => p = Some f /\ exists q, nn !! f = Some q /\ fchain nn q fs'
  end.

Definition elems (ev : gmap loc T) (ns : list loc) (vs : list T) : Prop :=
  Forall2 (fun n v => ev !! n = Some v) ns vs.

Definition queue_inv (s : St T) (vs : list T) : Prop :=
  exists ns fs,
    qchain (block_next <$> heap s) (head s) ns /\
    list.last (head s :: ns) = Some (tail s) /\
    fchain (node_next <$> heap s) (top s) fs /\
    NoDup (head s :: ns ++ fs) /\
    elems (elem <$> heap s) ns vs /\
    map_Forall (fun l b => refcnt b = 1%Z /\ (l < next_loc s)%N) (heap s).

(** [queue_inv] with its two chains named, and nothing else in the heap:
    every block is the dummy, holds a value, or is in the pool. *)
Definition queue_at (s : St T) (vs : list T) (ns fs : list loc) : Prop :=
  qchain (block_next <$> heap s) (head s) ns /\
  list.last (head s :: ns) = Some (tail s) /\
  fchain (node_next <$> heap s) (top s) fs /\
  NoDup (head s :: ns ++ fs) /\
  elems (elem <$> heap s) ns vs /\
  map_Forall (fun l b => refcnt b = 1%Z /\ (l < next_loc s)%N) (heap s) /\
  dom (heap s) = list_to_set (head s :: ns ++ fs).

End Views.

(** [keeps view m]: every run of [m] leaves the [view] of every block as it
    found it. *)
Section Keeps.
Context {T X : Type} (view : Block T -> X).

Definition keeps {A : Type} (m : Seq.M T A) : Prop :=
  forall s a s', m s = Some (a, s') -> view <$> heap s' = view <$> heap s.

End Keeps.

(** The state [MPMCQueue(capacity)] has built when it starts filling the pool:
    the dummy block at the first address, [head] and [tail] on it. *)
Definition constructed_head {T : Type} `{!Elem T} : St T :=
  mkSt (<[0%N := set_block_next None new_block]> (<[0%N := new_block]> ∅))
       None 0%N 0%N 1%N.

End Inv.

(** A bounded queue as one thread sees it: the values it holds and the
    number of blocks in its pool.  [enqueue] and [rewind] take a pool block
    when there is one; [try_enqueue] fails exactly when there is none; a
    successful dequeue gives a block back; a failed one leaves the
    caller's variable as it was. *)
Module Bounded.
Import Seq.Calls.
Section Bounded.
Context {T : Type} `{!Elem T}.

Definition bstep (q : list T * nat) (c : call T) : reply T * (list T * nat) :=
  let '(vs, p) := q in
  match c with
  | Enqueue v => (Done true, (vs ++ [v], pred p))
  | TryEnqueue v =>
      match p with
      | O => (Done false, (vs, O))
      | S p' => (Done true, (vs ++ [v], p'))
      end
  | TryDequeue | MpscTryDequeue =>
      match vs with
      | [] => (Got (false, elem_init), (vs, p))
      | v :: vs' => (Got (true, v), (vs', S p))
      end
  | Rewind v => (Done true, (v :: vs, pred p))
  end.

Fixpoint brun (q : list T * nat) (cs : list (call T)) : list (reply T) * (list T * nat) :=
  match cs with
  | [] => ([], q)
  | c :: cs' =>
      let '(r, q') := bstep q c in
      let '(rs, q'') := brun q' cs' in
      (r :: rs, q'')
  end.

(** The calls that may take a block from the allocator: [enqueue] and
    [rewind] call [new Block()] when the pool is empty. *)
Definition allocates (c : call T) : bool :=
  match c with
  | Enqueue _ | Rewind _ => true
  | TryEnqueue _ | TryDequeue | MpscTryDequeue => false
  end.

End Bounded.
End Bounded.

Module SeqTests.
Import Seq.

(** Scenario S2: a queue with a pool of 4 blocks; enqueue 1, 2, 3 and
    dequeue four times. *)
Definition s2 : option (list (bool * Z)) :=
  s ← MPMCQueue.create 3 4;
  let prog : M Z (list (bool * Z)) :=
    let! _ := MPMCQueue.enqueue 3 1%Z in
    let! _ := MPMCQueue.enqueue 3 2%Z in
    let! _ := MPMCQueue.enqueue 3 3%Z in
    let! a := MPMCQueue.try_dequeue 3 0%Z in
    let! b := MPMCQueue.try_dequeue 3 0%Z in
    let! c := MPMCQueue.try_dequeue 3 0%Z in
    let! d := MPMCQueue.try_dequeue 3 0%Z in
    ret [a; b; c; d] in
  fst <$> prog s.

Example s2_ok : s2 = Some [(true, 1); (true, 2); (true, 3); (false, 0)]%Z.
Proof. vm_compute. reflexivity. Qed.

(** Scenario S5 on an MPSC queue: enqueue 10, 20, 30; dequeue; rewind 99;
    dequeue four times. *)
Definition s5 : option (list (bool * Z)) :=
  s ← MPMCQueue.create 3 0;
  let prog : M Z (list (bool * Z)) :=
    let! _ := MPMCQueue.enqueue 3 10%Z in
    let! _ := MPMCQueue.enqueue 3 20%Z in
    let! _ := MPMCQueue.enqueue 3 30%Z in
    let! a := MPSCQueue.try_dequeue 3 0%Z in
    let! _ := MPSCQueue.rewind 3 99%Z in
    let! b := MPSCQueue.try_dequeue 3 0%Z in
    let! c := MPSCQueue.try_dequeue 3 0%Z in
    let! d := MPSCQueue.try_dequeue 3 0%Z in
    let! e := MPSCQueue.try_dequeue 3 0%Z in
    ret [a; b; c; d; e] in
  fst <$> prog s.

Example s5_ok :
  s5 = Some [(true, 10); (true, 99); (true, 20); (true, 30); (false, 0)]%Z.
Proof. vm_compute. reflexivity. Qed.

(** The state after [enqueue(10); enqueue(20); enqueue(30)] on a queue
    created with an empty pool. *)
Definition three_queued : St Z := Eval vm_compute in
  match (let! _ := MPMCQueue.enqueue 1 10%Z in
         let! _ := MPMCQueue.enqueue 1 20%Z in
         MPMCQueue.enqueue 1 30%Z) Inv.constructed_head with
  | Some (_, s) => s
  | None => Inv.constructed_head
  end.

(** The state after [enqueue(5); try_dequeue(x)] on a queue created with
    an empty pool. *)
Definition one_dequeued : St Z := Eval vm_compute in
  match (let! _ := MPMCQueue.enqueue 1 5%Z in MPMCQueue.try_dequeue 1 0%Z)
          Inv.constructed_head with
  | Some (_, s) => s
  | None => Inv.constructed_head
  end.

End SeqTests.

Module SeqFacts.
Import Seq.
Ltac unfold_prims :=
  unfold FreeList.push, load_refcnt, store_refcnt, fetch_sub_refcnt, cas_refcnt,
    load_node_next, store_node_next, load_block_next, store_block_next,
    load_top, cas_top, load_head, store_head, cas_head, exchange_tail,
    construct_elem, move_elem, bind, ret, load, modify, get, put, alloc.

(** evaluate closed [size_t] arithmetic and comparisons *)
Ltac is_pos_lit p :=
  lazymatch p with
  | xH => idtac
  | xO ?q => is_pos_lit q
  | xI ?q => is_pos_lit q
  end.
Ltac is_Z_lit z :=
  lazymatch z with
  | Z0 => idtac
  | Zpos ?p => is_pos_lit p
  | Zneg ?p => is_pos_lit p
  | (?a + ?b)%Z => is_Z_lit a; is_Z_lit b
  | (?a - ?b)%Z => is_Z_lit a; is_Z_lit b
  | wrap ?a => is_Z_lit a
  end.
Ltac compute_Z :=
  match goal with
  | |- context [wrap ?z] =>
      is_Z_lit z;
      let v := eval vm_compute in (wrap z) in change (wrap z) with v
  | |- context [Z.eqb ?a ?b] =>
      is_Z_lit a; is_Z_lit b;
      let v := eval vm_compute in (Z.eqb a b) in change (Z.eqb a b) with v
  end.

Ltac simp_heap0 :=
  repeat progress (unfold_prims; cbn; try first
    [ rewrite lookup_insert_eq
    | rewrite lookup_insert_ne by congruence
    | rewrite insert_insert_eq
    | match goal with H : ?m !! ?l = Some _ |- context [?m !! ?l] => rewrite H end
    | match goal with H : top ?s = _ |- context [top ?s] => rewrite H end
    | match goal with H : head ?s = _ |- context [head ?s] => rewrite H end
    | match goal with H : tail ?s = _ |- context [tail ?s] => rewrite H end
    | match goal with H : refcnt ?b = _ |- context [refcnt ?b] => rewrite H end
    | match goal with H : block_next ?b = _ |- context [block_next ?b] => rewrite H end
    | rewrite decide_True by done
    | progress (rewrite ?Z.eqb_refl)
    | compute_Z ]).


Section Exec.
Context {T : Type} `{!Elem T}.
Implicit Types (s : St T) (b : Block T) (l u : loc).

Lemma bind_ret {A B} (a : A) (f : A -> M T B) s : bind (ret a) f s = f a s.
Proof. reflexivity. Qed.

Lemma bind_some {A B} (m : M T A) (f : A -> M T B) s a s' :
  m s = Some (a, s') -> bind m f s = f a s'.
Proof. unfold bind. by intros ->. Qed.

Lemma set_refcnt_set_refcnt r r' b : set_refcnt r (set_refcnt r' b) = set_refcnt r b.
Proof. by destruct b. Qed.

Lemma release_ref_exec fuel s u b :
  heap s !! u = Some b ->
  FreeList.release_ref (S fuel) u s =
    if Z.eqb (refcnt b) 1
    then Some (tt, set_top (Some u)
                     (set_heap (<[u := set_refcnt 1 (set_node_next (top s) b)]> (heap s)) s))
    else Some (tt, set_heap (<[u := set_refcnt (wrap (refcnt b - 1)) b]> (heap s)) s).
Proof.
  intros Hb. unfold FreeList.release_ref. simp_heap0.
  destruct (Z.eqb (refcnt b) 1) eqn:E; cbn; [|reflexivity].
  simp_heap0. by destruct b.
Qed.


Lemma set_refcnt_id b : set_refcnt (refcnt b) b = b.
Proof. by destruct b. Qed.

Lemma set_heap_id s : set_heap (heap s) s = s.
Proof. by destruct s. Qed.

End Exec.

Ltac simp_heap :=
  repeat progress (unfold_prims; cbn; try first
    [ rewrite lookup_insert_eq
    | rewrite lookup_insert_ne by congruence
    | rewrite insert_insert_eq
    | match goal with H : ?m !! ?l = Some _ |- context [?m !! ?l] => rewrite H end
    | match goal with H : top ?s = _ |- context [top ?s] => rewrite H end
    | match goal with H : head ?s = _ |- context [head ?s] => rewrite H end
    | match goal with H : tail ?s = _ |- context [tail ?s] => rewrite H end
    | match goal with H : refcnt ?b = _ |- context [refcnt ?b] => rewrite H end
    | match goal with H : block_next ?b = _ |- context [block_next ?b] => rewrite H end
    | rewrite decide_True by done
    | erewrite release_ref_exec by (cbn;
        repeat (rewrite lookup_insert_ne by congruence);
        first [ apply lookup_insert_eq | eassumption ])
    | progress (rewrite ?Z.eqb_refl)
    | compute_Z ]);
  try reflexivity.

Section Exec2.
Context {T : Type} `{!Elem T}.
Implicit Types (s : St T) (b : Block T) (l u : loc).

Lemma pop_exec_some fuel s f b :
  top s = Some f -> heap s !! f = Some b -> refcnt b = 1%Z ->
  FreeList.pop (S fuel) s = Some (Some f, set_top (node_next b) s).
Proof.
  intros Ht Hb Hr. unfold FreeList.pop. simp_heap.
  rewrite set_refcnt_set_refcnt, <- Hr, set_refcnt_id, insert_id by done.
  by destruct s.
Qed.

Lemma pop_exec_none fuel s :
  top s = None -> FreeList.pop (S fuel) s = Some (None, s).
Proof. intros Ht. unfold FreeList.pop. simp_heap. Qed.

Lemma _enqueue_exec s n v bn bt :
  heap s !! n = Some bn -> heap s !! tail s = Some bt -> n <> tail s ->
  MPMCQueue._enqueue n v s =
    Some (tt, mkSt (<[tail s := set_block_next (Some n) bt]>
                     (<[n := set_block_next None (set_elem v bn)]> (heap s)))
                   (top s) (head s) n (next_loc s)).
Proof. intros Hn Ht Hne. unfold MPMCQueue._enqueue. simp_heap. Qed.

Lemma enqueue_exec_pool fuel s v f bf bt :
  top s = Some f -> heap s !! f = Some bf -> refcnt bf = 1%Z ->
  heap s !! tail s = Some bt -> f <> tail s ->
  MPMCQueue.enqueue (S fuel) v s =
    Some (true, mkSt (<[tail s := set_block_next (Some f) bt]>
                       (<[f := set_block_next None (set_elem v bf)]> (heap s)))
                     (node_next bf) (head s) f (next_loc s)).
Proof.
  intros Ht Hf Hr Htl Hne. unfold MPMCQueue.enqueue.
  rewrite (bind_some _ _ _ _ _ (pop_exec_some fuel s f bf Ht Hf Hr)).
  unfold MPMCQueue._enqueue. simp_heap.
Qed.

Lemma enqueue_exec_fresh fuel s v bt :
  top s = None -> heap s !! tail s = Some bt -> heap s !! next_loc s = None ->
  MPMCQueue.enqueue (S fuel) v s =
    Some (true, mkSt (<[tail s := set_block_next (Some (next_loc s)) bt]>
                       (<[next_loc s := set_block_next None (set_elem v new_block)]> (heap s)))
                     None (head s) (next_loc s) (next_loc s + 1)%N).
Proof.
  intros Ht Htl Hfr. assert (next_loc s <> tail s) by congruence.
  unfold MPMCQueue.enqueue.
  rewrite (bind_some _ _ _ _ _ (pop_exec_none fuel s Ht)). cbn.
  unfold MPMCQueue._enqueue. simp_heap.
Qed.

Lemma try_enqueue_exec_none fuel s v :
  top s = None -> MPMCQueue.try_enqueue (S fuel) v s = Some (false, s).
Proof.
  intros Ht. unfold MPMCQueue.try_enqueue.
  rewrite (bind_some _ _ _ _ _ (pop_exec_none fuel s Ht)). reflexivity.
Qed.

Lemma try_enqueue_exec_pool fuel s v f bf bt :
  top s = Some f -> heap s !! f = Some bf -> refcnt bf = 1%Z ->
  heap s !! tail s = Some bt -> f <> tail s ->
  MPMCQueue.try_enqueue (S fuel) v s =
    Some (true, mkSt (<[tail s := set_block_next (Some f) bt]>
                       (<[f := set_block_next None (set_elem v bf)]> (heap s)))
                     (node_next bf) (head s) f (next_loc s)).
Proof.
  intros Ht Hf Hr Htl Hne. unfold MPMCQueue.try_enqueue.
  rewrite (bind_some _ _ _ _ _ (pop_exec_some fuel s f bf Ht Hf Hr)).
  unfold MPMCQueue._enqueue. simp_heap.
Qed.

Lemma try_dequeue_exec_some fuel s e h bh n bn :
  head s = h -> heap s !! h = Some bh -> refcnt bh = 1%Z ->
  block_next bh = Some n -> heap s !! n = Some bn -> n <> h ->
  MPMCQueue.try_dequeue (S fuel) e s =
    Some ((true, elem bn),
          mkSt (<[h := set_node_next (top s) bh]>
                 (<[n := set_elem (elem_moved (elem bn)) bn]> (heap s)))
               (Some h) n (tail s) (next_loc s)).
Proof.
  intros Hh Hb Hr Hn Hbn Hne. unfold MPMCQueue.try_dequeue, MPMCQueue.try_dequeue_body. simp_heap.
  rewrite (insert_insert_ne _ h n), insert_insert_eq, (insert_insert_ne _ n h)
    by congruence.
  destruct s, bh; cbn in *; subst; reflexivity.
Qed.

Lemma try_dequeue_exec_none fuel s e h bh :
  head s = h -> heap s !! h = Some bh -> refcnt bh = 1%Z -> block_next bh = None ->
  MPMCQueue.try_dequeue (S fuel) e s = Some ((false, e), s).
Proof.
  intros Hh Hb Hr Hn. unfold MPMCQueue.try_dequeue, MPMCQueue.try_dequeue_body. simp_heap.
  rewrite set_refcnt_set_refcnt, <- Hr, set_refcnt_id, insert_id by done.
  by destruct s.
Qed.

Lemma mpsc_try_dequeue_exec_some fuel s e h bh n bn :
  head s = h -> heap s !! h = Some bh -> refcnt bh = 1%Z ->
  block_next bh = Some n -> heap s !! n = Some bn -> n <> h ->
  MPSCQueue.try_dequeue (S fuel) e s =
    Some ((true, elem bn),
          mkSt (<[h := set_node_next (top s) bh]>
                 (<[n := set_elem (elem_moved (elem bn)) bn]> (heap s)))
               (Some h) n (tail s) (next_loc s)).
Proof.
  intros Hh Hb Hr Hn Hbn Hne. unfold MPSCQueue.try_dequeue, FreeList.push. simp_heap.
  destruct s, bh; cbn in *; subst; reflexivity.
Qed.

Lemma mpsc_try_dequeue_exec_none fuel s e h bh :
  head s = h -> heap s !! h = Some bh -> block_next bh = None ->
  MPSCQueue.try_dequeue (S fuel) e s = Some ((false, e), s).
Proof. intros Hh Hb Hn. unfold MPSCQueue.try_dequeue. simp_heap. Qed.

Lemma rewind_exec_pool fuel s v f bf h bh :
  top s = Some f -> heap s !! f = Some bf -> refcnt bf = 1%Z ->
  head s = h -> heap s !! h = Some bh -> f <> h ->
  MPSCQueue.rewind (S fuel) v s =
    Some (true, mkSt (<[f := set_block_next (Some h) bf]>
                       (<[h := set_elem v bh]> (heap s)))
                     (node_next bf) f (tail s) (next_loc s)).
Proof.
  intros Ht Hf Hr Hh Hb Hne. unfold MPSCQueue.rewind.
  rewrite (bind_some _ _ _ _ _ (pop_exec_some fuel s f bf Ht Hf Hr)). cbn.
  simp_heap.
Qed.

Lemma rewind_exec_fresh fuel s v h bh :
  top s = None -> head s = h -> heap s !! h = Some bh -> heap s !! next_loc s = None ->
  MPSCQueue.rewind (S fuel) v s =
    Some (true, mkSt (<[next_loc s := set_block_next (Some h) new_block]>
                       (<[h := set_elem v bh]> (heap s)))
                     None (next_loc s) (tail s) (next_loc s + 1)%N).
Proof.
  intros Ht Hh Hb Hfr. assert (next_loc s <> h) by congruence.
  unfold MPSCQueue.rewind.
  rewrite (bind_some _ _ _ _ _ (pop_exec_none fuel s Ht)). cbn.
  simp_heap. rewrite (insert_insert_ne _ h (next_loc s)) by done.
  rewrite insert_insert_eq. reflexivity.
Qed.

Lemma wrap_succ_pred t : (0 <= t < 2 ^ 64)%Z -> wrap (wrap (t + 1) - 1) = t.
Proof.
  intros Ht. unfold wrap. destruct (Z.eq_dec t (2 ^ 64 - 1)%Z) as [->|Hne]; [reflexivity|].
  rewrite (Z.mod_small (t + 1)) by lia. rewrite Z.mod_small by lia. lia.
Qed.

Lemma wrap_succ_ne1 t : (0 < t < 2 ^ 64)%Z -> Z.eqb (wrap (t + 1)) 1 = false.
Proof.
  intros Ht. apply Z.eqb_neq. unfold wrap.
  destruct (Z.eq_dec t (2 ^ 64 - 1)%Z) as [->|Hne]; [discriminate|].
  rewrite Z.mod_small by lia. lia.
Qed.

Lemma try_dequeue_body_no_head fuel e s :
  heap s !! head s = None -> MPMCQueue.try_dequeue_body fuel e s = None.
Proof. intros Hh. unfold MPMCQueue.try_dequeue_body. unfold_prims. cbn. by rewrite Hh. Qed.

Lemma try_dequeue_body_zero fuel e s bh :
  heap s !! head s = Some bh -> refcnt bh = 0%Z ->
  MPMCQueue.try_dequeue_body fuel e s = Some (inl e, s).
Proof. intros Hh Ht. unfold MPMCQueue.try_dequeue_body. simp_heap0. reflexivity. Qed.

Lemma try_dequeue_body_empty fuel e s bh :
  heap s !! head s = Some bh -> refcnt bh <> 0%Z -> (0 <= refcnt bh < 2 ^ 64)%Z ->
  block_next bh = None ->
  MPMCQueue.try_dequeue_body fuel e s = Some (inr (false, e), s).
Proof.
  intros Hh Ht Hr Hn. unfold MPMCQueue.try_dequeue_body. simp_heap0.
  rewrite (proj2 (Z.eqb_neq _ _) Ht). simp_heap0.
  unfold FreeList.release_ref. simp_heap0.
  rewrite wrap_succ_ne1 by lia. cbn. rewrite wrap_succ_pred by lia.
  rewrite set_refcnt_set_refcnt, set_refcnt_id, insert_id by done.
  by destruct s.
Qed.

Lemma try_dequeue_body_nonempty fuel e s bh n :
  heap s !! head s = Some bh -> refcnt bh <> 0%Z -> block_next bh = Some n ->
  match MPMCQueue.try_dequeue_body fuel e s with
  | Some (inr (true, _), _) | None => True
  | _ => False
  end.
Proof.
  intros Hh Ht Hn. unfold MPMCQueue.try_dequeue_body. simp_heap0.
  rewrite (proj2 (Z.eqb_neq _ _) Ht). simp_heap0.
  destruct (<[_:=_]> _ !! n) eqn:E1; cbn; [|exact I]. rewrite E1; cbn.
  rewrite decide_True by done. cbn.
  destruct (FreeList.release_ref fuel _ _) as [[? ?]|]; cbn; [|exact I].
  destruct (FreeList.release_ref fuel _ _) as [[? ?]|]; cbn; exact I.
Qed.

Lemma try_dequeue_weak_body_nil fuel e s :
  MPMCQueue.try_dequeue_weak_body fuel (e, []) s =
    (fun '(r, s') => (match r with inl e' => inl (e', []) | inr a => inr a end, s'))
      <$> MPMCQueue.try_dequeue_body fuel e s.
Proof.
  unfold MPMCQueue.try_dequeue_weak_body, MPMCQueue.try_dequeue_body, cas_head_weak,
    bind, ret.
  repeat (case_match; cbn; try reflexivity; try congruence).
Qed.

Lemma loop_try_dequeue_weak_nil fuel n e s :
  loop n (MPMCQueue.try_dequeue_body fuel) e s =
  loop n (MPMCQueue.try_dequeue_weak_body fuel) (e, []) s.
Proof.
  revert e s; induction n as [|n IH]; intros e s; [done|].
  cbn [loop]. unfold bind at 1 2. rewrite try_dequeue_weak_body_nil.
  destruct (MPMCQueue.try_dequeue_body fuel e s) as [[[e'|a] s']|]; cbn; [apply IH|done|done].
Qed.

(** [try_dequeue] is the run of [try_dequeue_weak] in which no
    [head.compare_exchange_weak] fails spuriously. *)
Lemma try_dequeue_weak_nil fuel e s :
  MPMCQueue.try_dequeue fuel e s = MPMCQueue.try_dequeue_weak fuel [] e s.
Proof. apply loop_try_dequeue_weak_nil. Qed.

End Exec2.
End SeqFacts.

Module SeqInv.
Import Seq Inv SeqFacts.
Section Inv.
Context {T : Type} `{!Elem T}.
Implicit Types (s : St T) (vs : list T) (nx nn : gmap loc (option loc)) (ns fs : list loc).

Lemma qchain_in_dom nx x ns :
  qchain nx x ns -> forall y, y ∈ x :: ns -> is_Some (nx !! y).
Proof.
  revert x; induction ns as [|n ns IH]; intros x Hq y Hy; simpl in Hq.
  - apply list_elem_of_singleton in Hy as ->. by eexists.
  - destruct Hq as [Hx Hq]. apply elem_of_cons in Hy as [->|Hy]; [by eexists|].
    by apply (IH n).
Qed.

Lemma qchain_insert_notin nx x ns l o :
  l ∉ x :: ns -> qchain nx x ns -> qchain (<[l:=o]> nx) x ns.
Proof.
  revert x; induction ns as [|n ns IH]; intros x Hl Hq; simpl in *;
    rewrite lookup_insert_ne by set_solver.
  - done.
  - destruct Hq as [Hx Hq]. split; [done|]. apply IH; [set_solver|done].
Qed.

Lemma fchain_insert_notin nn p fs l o :
  l ∉ fs -> fchain nn p fs -> fchain (<[l:=o]> nn) p fs.
Proof.
  revert p; induction fs as [|f fs IH]; intros p Hl Hf; simpl in *; [done|].
  destruct Hf as (-> & q & Hq & Hf). split; [done|]. exists q.
  rewrite lookup_insert_ne by set_solver. split; [done|]. apply IH; [set_solver|done].
Qed.

Lemma elems_insert_notin (ev : gmap loc T) ns vs l v :
  l ∉ ns -> elems ev ns vs -> elems (<[l:=v]> ev) ns vs.
Proof.
  unfold elems. revert vs; induction ns as [|n ns IH]; intros vs Hl Hv;
    inversion Hv; subst; constructor.
  - rewrite lookup_insert_ne by set_solver. done.
  - apply IH; [set_solver|done].
Qed.

Lemma qchain_snoc nx x ns t f :
  NoDup (x :: ns) -> f ∉ x :: ns -> qchain nx x ns -> list.last (x :: ns) = Some t ->
  qchain (<[t:=Some f]> (<[f:=None]> nx)) x (ns ++ [f]).
Proof.
  revert x; induction ns as [|n ns IH]; intros x Hnd Hf Hq Hl; simpl in *.
  - injection Hl as ->. rewrite lookup_insert_eq. split; [done|].
    rewrite lookup_insert_ne by set_solver. apply lookup_insert_eq.
  - destruct Hq as [Hx Hq]. inversion Hnd as [|? ? Hx' Hnd']; subst.
    assert (t ∈ n :: ns) by (apply last_Some_elem_of; done).
    rewrite !lookup_insert_ne by set_solver. split; [done|].
    apply IH; [done|set_solver|done|done].
Qed.

Lemma NoDup_snoc_notin (l : list loc) x : NoDup l -> x ∉ l -> NoDup (l ++ [x]).
Proof.
  intros Hl Hx. apply list.NoDup_app. split; [done|]. split; [|apply NoDup_singleton].
  intros y Hy ->%list_elem_of_singleton. done.
Qed.

Lemma inv_post_enqueue s vs ns fs' f bf bt v top' nl' :
  qchain (block_next <$> heap s) (head s) ns ->
  list.last (head s :: ns) = Some (tail s) ->
  fchain (node_next <$> <[f:=bf]> (heap s)) top' fs' ->
  NoDup (head s :: ns ++ f :: fs') ->
  elems (elem <$> heap s) ns vs ->
  heap s !! tail s = Some bt ->
  map_Forall (fun l b => refcnt b = 1%Z /\ (l < nl')%N) (heap s) ->
  refcnt bf = 1%Z -> (f < nl')%N ->
  queue_inv (mkSt (<[tail s := set_block_next (Some f) bt]>
                    (<[f := set_block_next None (set_elem v bf)]> (heap s)))
                  top' (head s) f nl') (vs ++ [v]).
Proof.
  intros Hq Hl Hf Hnd He Ht Hall Hr Hlt.
  pose proof Hnd as Hnd0. rewrite app_comm_cons in Hnd.
  apply list.NoDup_app in Hnd as (Hnd1 & Hdisj & Hnd2).
  assert (Hfn : f ∉ head s :: ns) by (intros Hin; apply (Hdisj f Hin); left).
  assert (Htf : f <> tail s)
    by (intros Heq; apply Hfn; rewrite Heq; by apply last_Some_elem_of).
  rewrite fmap_insert in Hf.
  exists (ns ++ [f]), fs'. cbn [heap head tail top next_loc]. rewrite !fmap_insert.
  cbn [block_next node_next elem set_block_next set_elem].
  split; [|split; [|split; [|split; [|split]]]].
  - by apply qchain_snoc.
  - rewrite app_comm_cons. apply last_snoc.
  - rewrite (insert_id _ (tail s)); [done|].
    rewrite lookup_insert_ne by done. by rewrite lookup_fmap, Ht.
  - by rewrite <- app_assoc.
  - rewrite (insert_id _ (tail s)).
    + apply Forall2_app; [apply elems_insert_notin; [set_solver|done]|].
      constructor; [apply lookup_insert_eq|constructor].
    + rewrite lookup_insert_ne by done. by rewrite lookup_fmap, Ht.
  - apply map_Forall_insert_2; [apply (Hall _ _ Ht)|].
    apply map_Forall_insert_2; [done|done].
Qed.

Lemma enqueue_inv fuel s vs v :
  queue_inv s vs ->
  exists s', MPMCQueue.enqueue (S fuel) v s = Some (true, s') /\ queue_inv s' (vs ++ [v]).
Proof.
  intros (ns & fs & Hq & Hl & Hf & Hnd & He & Hall).
  assert (Htin : tail s ∈ head s :: ns) by (by apply last_Some_elem_of).
  destruct (qchain_in_dom _ _ _ Hq _ Htin) as [ot Hot].
  rewrite lookup_fmap in Hot. destruct (heap s !! tail s) as [bt|] eqn:Ht; [|done].
  destruct fs as [|f fs']; simpl in Hf.
  - assert (Hfr : heap s !! next_loc s = None).
    { destruct (heap s !! next_loc s) eqn:E; [|done].
      destruct (Hall _ _ E). lia. }
    eexists; split; [by apply enqueue_exec_fresh|].
    apply inv_post_enqueue with (ns := ns) (fs' := []); try done.
    + rewrite app_comm_cons. rewrite app_nil_r in Hnd. apply NoDup_snoc_notin; [done|].
      intros Hin. destruct (qchain_in_dom _ _ _ Hq _ Hin) as [? Hx].
      by rewrite lookup_fmap, Hfr in Hx.
    + apply (map_Forall_impl _ _ _ Hall). intros ? ? [? ?]; split; [done|lia].
    + lia.
  - destruct Hf as (Htop & q & Hq' & Hf). rewrite lookup_fmap in Hq'.
    destruct (heap s !! f) as [bf|] eqn:Hbf; [|done]. injection Hq' as <-.
    destruct (Hall _ _ Hbf) as [Hr Hlt].
    assert (f <> tail s).
    { pose proof Hnd as Hnd'. rewrite app_comm_cons in Hnd'.
      apply list.NoDup_app in Hnd' as (_ & Hd & _).
      intros Heq. apply (Hd (tail s) Htin). rewrite Heq. left. }
    eexists; split; [by eapply enqueue_exec_pool|].
    apply inv_post_enqueue with (ns := ns) (fs' := fs'); try done. by rewrite insert_id.
Qed.

Lemma dequeue_inv fuel s v vs e :
  queue_inv s (v :: vs) ->
  exists s',
    MPMCQueue.try_dequeue (S fuel) e s = Some ((true, v), s') /\
    MPSCQueue.try_dequeue (S fuel) e s = Some ((true, v), s') /\
    queue_inv s' vs.
Proof.
  intros (ns & fs & Hq & Hl & Hf & Hnd & He & Hall).
  destruct ns as [|n ns]; [inversion He|].
  unfold elems in He. inversion He as [|? ? ? ? Hev He']; subst.
  destruct Hq as [Hh Hq]. rewrite lookup_fmap in Hh.
  destruct (heap s !! head s) as [bh|] eqn:Hbh; [|done]. injection Hh as Hbn.
  rewrite lookup_fmap in Hev.
  destruct (heap s !! n) as [bn|] eqn:Hbnn; [|done]. injection Hev as <-.
  destruct (Hall _ _ Hbh) as [Hr _].
  pose proof Hnd as Hnd0.
  inversion Hnd as [|? ? Hhn Hnd']; subst.
  inversion Hnd' as [|? ? Hnn Hnd'']; subst.
  assert (n <> head s) by set_solver.
  eexists; split; [by eapply try_dequeue_exec_some|].
  split; [by eapply mpsc_try_dequeue_exec_some|].
  exists ns, (head s :: fs). cbn [heap head tail top next_loc]. rewrite !fmap_insert.
  cbn [block_next node_next elem set_node_next set_elem].
  split; [|split; [|split; [|split; [|split]]]].
  - rewrite (insert_id _ n) by (by rewrite lookup_fmap, Hbnn).
    rewrite (insert_id _ (head s)) by (by rewrite lookup_fmap, Hbh). done.
  - exact Hl.
  - rewrite (insert_id _ n) by (by rewrite lookup_fmap, Hbnn).
    split; [done|]. exists (top s). rewrite lookup_insert_eq. split; [done|].
    apply fchain_insert_notin; [set_solver|done].
  - change (NoDup ((n :: ns) ++ head s :: fs)). rewrite <- Permutation_middle. done.
  - apply elems_insert_notin; [set_solver|]. apply elems_insert_notin; [set_solver|done].
  - apply map_Forall_insert_2; [apply (Hall _ _ Hbh)|].
    apply map_Forall_insert_2; [apply (Hall _ _ Hbnn)|done].
Qed.

Lemma dequeue_empty_inv fuel s e :
  queue_inv s [] ->
  MPMCQueue.try_dequeue (S fuel) e s = Some ((false, e), s) /\
  MPSCQueue.try_dequeue (S fuel) e s = Some ((false, e), s).
Proof.
  intros (ns & fs & Hq & Hl & Hf & Hnd & He & Hall).
  unfold elems in He. inversion He; subst. simpl in Hq.
  rewrite lookup_fmap in Hq.
  destruct (heap s !! head s) as [bh|] eqn:Hbh; [|done]. injection Hq as Hbn.
  destruct (Hall _ _ Hbh) as [Hr _].
  split; [by eapply try_dequeue_exec_none|by eapply mpsc_try_dequeue_exec_none].
Qed.

Lemma inv_post_rewind s vs ns fs' f bf bh v top' nl' :
  qchain (block_next <$> heap s) (head s) ns ->
  list.last (head s :: ns) = Some (tail s) ->
  fchain (node_next <$> <[f:=bf]> (heap s)) top' fs' ->
  NoDup (head s :: ns ++ f :: fs') ->
  elems (elem <$> heap s) ns vs ->
  heap s !! head s = Some bh ->
  map_Forall (fun l b => refcnt b = 1%Z /\ (l < nl')%N) (heap s) ->
  refcnt bf = 1%Z -> (f < nl')%N ->
  queue_inv (mkSt (<[f := set_block_next (Some (head s)) bf]>
                    (<[head s := set_elem v bh]> (heap s)))
                  top' f (tail s) nl') (v :: vs).
Proof.
  intros Hq Hl Hf Hnd He Hh Hall Hr Hlt.
  change (NoDup ((head s :: ns) ++ f :: fs')) in Hnd.
  rewrite <- Permutation_middle in Hnd.
  inversion Hnd as [|? ? Hfn Hnd']; subst.
  assert (f <> head s) by set_solver.
  inversion Hnd' as [|? ? Hhn _]; subst.
  rewrite fmap_insert in Hf.
  exists (head s :: ns), fs'. cbn [heap head tail top next_loc]. rewrite !fmap_insert.
  cbn [block_next node_next elem set_block_next set_elem].
  split; [|split; [|split; [|split; [|split]]]].
  - rewrite (insert_id _ (head s)) by (by rewrite lookup_fmap, Hh).
    split; [apply lookup_insert_eq|]. apply qchain_insert_notin; [set_solver|done].
  - exact Hl.
  - by rewrite (insert_id _ (head s)) by (by rewrite lookup_fmap, Hh).
  - done.
  - apply elems_insert_notin; [set_solver|]. constructor; [apply lookup_insert_eq|].
    apply elems_insert_notin; [set_solver|done].
  - apply map_Forall_insert_2; [done|].
    apply map_Forall_insert_2; [apply (Hall _ _ Hh)|done].
Qed.

Lemma rewind_inv fuel s vs v :
  queue_inv s vs ->
  exists s', MPSCQueue.rewind (S fuel) v s = Some (true, s') /\ queue_inv s' (v :: vs).
Proof.
  intros (ns & fs & Hq & Hl & Hf & Hnd & He & Hall).
  destruct (qchain_in_dom _ _ _ Hq (head s) ltac:(left)) as [oh Hoh].
  rewrite lookup_fmap in Hoh. destruct (heap s !! head s) as [bh|] eqn:Hh; [|done].
  destruct fs as [|f fs']; simpl in Hf.
  - assert (Hfr : heap s !! next_loc s = None).
    { destruct (heap s !! next_loc s) eqn:E; [|done].
      destruct (Hall _ _ E). lia. }
    assert (Hfn : next_loc s ∉ head s :: ns).
    { intros Hin. destruct (qchain_in_dom _ _ _ Hq _ Hin) as [? Hx].
      by rewrite lookup_fmap, Hfr in Hx. }
    eexists; split; [eapply rewind_exec_fresh; eauto|].
    apply inv_post_rewind with (ns := ns) (fs' := []); try done.
    + rewrite app_comm_cons. rewrite app_nil_r in Hnd. by apply NoDup_snoc_notin.
    + apply (map_Forall_impl _ _ _ Hall). intros ? ? [? ?]; split; [done|lia].
    + lia.
  - destruct Hf as (Htop & q & Hq' & Hf). rewrite lookup_fmap in Hq'.
    destruct (heap s !! f) as [bf|] eqn:Hbf; [|done]. injection Hq' as <-.
    destruct (Hall _ _ Hbf) as [Hr Hlt].
    assert (f <> head s).
    { pose proof Hnd as Hnd'. inversion Hnd' as [|? ? Hx _]; subst. set_solver. }
    eexists; split; [by eapply rewind_exec_pool|].
    apply inv_post_rewind with (ns := ns) (fs' := fs'); try done. by rewrite insert_id.
Qed.

Lemma queue_inv_top_pool s vs :
  queue_inv s vs -> top s = None \/
  exists f bf, top s = Some f /\ heap s !! f = Some bf /\ refcnt bf = 1%Z.
Proof.
  intros (ns & fs & Hq & Hl & Hf & Hnd & He & Hall).
  destruct fs as [|f fs']; simpl in Hf; [by left|right].
  destruct Hf as (Htop & q & Hq' & _). rewrite lookup_fmap in Hq'.
  destruct (heap s !! f) as [bf|] eqn:Hbf; [|done].
  exists f, bf. split; [done|]. split; [done|]. apply (Hall _ _ Hbf).
Qed.

Lemma try_enqueue_inv fuel s vs v :
  queue_inv s vs ->
  (top s = None /\ MPMCQueue.try_enqueue (S fuel) v s = Some (false, s)) \/
  (top s <> None /\ exists s',
     MPMCQueue.try_enqueue (S fuel) v s = Some (true, s') /\
     MPMCQueue.enqueue (S fuel) v s = Some (true, s') /\
     queue_inv s' (vs ++ [v])).
Proof.
  intros Hinv.
  destruct (queue_inv_top_pool s vs Hinv) as [Ht|(f & bf & Ht & Hbf & Hr)].
  - left. split; [done|]. by apply try_enqueue_exec_none.
  - right. split; [by rewrite Ht|].
    destruct (enqueue_inv fuel s vs v Hinv) as (s' & Hs' & Hinv').
    exists s'. split; [|done].
    destruct Hinv as (ns & fs & Hq & Hl & Hf & Hnd & He & Hall).
    assert (Htin : tail s ∈ head s :: ns) by (by apply last_Some_elem_of).
    destruct (qchain_in_dom _ _ _ Hq _ Htin) as [ot Hot].
    rewrite lookup_fmap in Hot. destruct (heap s !! tail s) as [bt|] eqn:Htl; [|done].
    assert (f <> tail s).
    { destruct fs as [|f' fs']; simpl in Hf; [congruence|].
      destruct Hf as (Hf' & _). rewrite Ht in Hf'. injection Hf' as <-.
      rewrite app_comm_cons in Hnd. apply list.NoDup_app in Hnd as (_ & Hd & _).
      intros Heq. apply (Hd (tail s) Htin). rewrite Heq. left. }
    rewrite (try_enqueue_exec_pool fuel s v f bf bt) by done.
    by rewrite (enqueue_exec_pool fuel s v f bf bt) in Hs' by done.
Qed.

Lemma push_fresh_inv fuel s vs :
  queue_inv s vs ->
  exists s', (let! b := alloc in FreeList.push (S fuel) b) s = Some (true, s') /\
             queue_inv s' vs.
Proof.
  intros (ns & fs & Hq & Hl & Hf & Hnd & He & Hall).
  assert (Hfr : heap s !! next_loc s = None).
  { destruct (heap s !! next_loc s) eqn:E; [|done]. destruct (Hall _ _ E). lia. }
  assert (Hfn : forall y, y ∈ head s :: ns ++ fs -> heap s !! y <> None).
  { intros y Hy Hn. rewrite app_comm_cons in Hy. apply elem_of_app in Hy as [Hy|Hy].
    - destruct (qchain_in_dom _ _ _ Hq _ Hy) as [? Hx]. by rewrite lookup_fmap, Hn in Hx.
    - clear -Hf Hy Hn. revert Hf. generalize (top s). induction fs as [|f fs IH];
        intros p Hf; [set_solver|]. destruct Hf as (_ & q & Hq & Hf).
      apply elem_of_cons in Hy as [->|Hy]; [by rewrite lookup_fmap, Hn in Hq|].
      by apply (IH Hy q). }
  assert (Hnl : next_loc s ∉ head s :: ns ++ fs) by (intros Hin; by apply (Hfn _ Hin)).
  eexists. split.
  { simp_heap. }
  exists ns, (next_loc s :: fs). cbn [set_top set_heap heap head tail top next_loc].
  rewrite !fmap_insert. cbn [block_next node_next elem refcnt set_refcnt set_node_next new_block].
  split; [|split; [|split; [|split; [|split]]]].
  - apply qchain_insert_notin; [set_solver|done].
  - done.
  - split; [done|]. exists (top s). rewrite lookup_insert_eq. split; [done|].
    apply fchain_insert_notin; [set_solver|done].
  - change (NoDup ((head s :: ns) ++ next_loc s :: fs)).
    rewrite <- Permutation_middle. by constructor.
  - apply elems_insert_notin; [set_solver|done].
  - apply map_Forall_insert_2; [cbn; split; [done|lia]|].
    apply (map_Forall_impl _ _ _ Hall). intros ? ? [? ?]; split; [done|lia].
Qed.

Lemma fill_inv fuel cap s vs :
  queue_inv s vs ->
  exists s', MPMCQueue.fill (S fuel) cap s = Some (tt, s') /\ queue_inv s' vs.
Proof.
  revert s; induction cap as [|cap IH]; intros s Hinv; [by exists s|].
  destruct (push_fresh_inv fuel s vs Hinv) as (s1 & Hs1 & Hinv1).
  destruct (IH s1 Hinv1) as (s' & Hs' & Hinv').
  exists s'. split; [|done]. cbn [MPMCQueue.fill].
  unfold bind at 1. cbn [alloc]. unfold bind in Hs1 at 1. cbn [alloc] in Hs1.
  unfold bind at 1. destruct (FreeList.push (S fuel) _ _) as [[? ?]|]; [|done].
  injection Hs1 as -> ->. done.
Qed.

Lemma create_inv fuel cap :
  exists s, MPMCQueue.create (S fuel) cap = Some s /\ queue_inv s [].
Proof.
  assert (Hinv : queue_inv constructed_head []).
  { exists [], []. unfold constructed_head. cbn [heap head tail top next_loc].
    rewrite !fmap_insert, fmap_empty. cbn [block_next node_next elem set_block_next new_block].
    split; [cbn [qchain]; by rewrite lookup_insert_eq|].
    split; [done|]. split; [done|]. split; [apply NoDup_singleton|].
    split; [constructor|].
    rewrite insert_insert_eq. apply map_Forall_insert_2; [cbn; split; [done|lia]|].
    apply map_Forall_empty. }
  destruct (fill_inv fuel cap _ [] Hinv) as (s & Hs & Hinv').
  exists s. split; [|done]. unfold MPMCQueue.create.
  change (MPMCQueue.construct (S fuel) cap MPMCQueue.empty_state)
    with (MPMCQueue.fill (S fuel) cap constructed_head).
  by rewrite Hs.
Qed.

Lemma enqueue_all_inv fuel vs s us :
  queue_inv s us ->
  exists s', Client.enqueue_all (S fuel) vs s = Some (tt, s') /\ queue_inv s' (us ++ vs).
Proof.
  revert s us; induction vs as [|v vs IH]; intros s us Hinv.
  - exists s. by rewrite app_nil_r.
  - destruct (enqueue_inv fuel s us v Hinv) as (s1 & Hs1 & Hinv1).
    destruct (IH s1 _ Hinv1) as (s' & Hs' & Hinv').
    exists s'. cbn [Client.enqueue_all]. rewrite (bind_some _ _ _ _ _ Hs1).
    rewrite <- app_assoc in Hinv'. done.
Qed.

Lemma dequeue_all_inv fuel vs s :
  queue_inv s vs ->
  exists s', Client.dequeue_n (S fuel) (S (length vs)) s =
             Some (((fun v => (true, v)) <$> vs) ++ [(false, elem_init)], s').
Proof.
  revert s; induction vs as [|v vs IH]; intros s Hinv.
  - exists s. cbn [Client.dequeue_n length].
    rewrite (bind_some _ _ _ _ _ (proj1 (dequeue_empty_inv fuel s elem_init Hinv))).
    reflexivity.
  - destruct (dequeue_inv fuel s v vs elem_init Hinv) as (s1 & Hs1 & _ & Hinv1).
    destruct (IH s1 Hinv1) as (s' & Hs').
    exists s'. cbn [Client.dequeue_n length]. rewrite (bind_some _ _ _ _ _ Hs1).
    rewrite (bind_some _ _ _ _ _ Hs'). reflexivity.
Qed.

Lemma enqueue_fresh_alloc fuel s vs v :
  queue_inv s vs -> top s = None ->
  exists s', MPMCQueue.enqueue (S fuel) v s = Some (true, s') /\
             tail s' = next_loc s /\ next_loc s' = (next_loc s + 1)%N /\
             heap s !! next_loc s = None.
Proof.
  intros (ns & fs & Hq & Hl & Hf & Hnd & He & Hall) Htop.
  assert (Htin : tail s ∈ head s :: ns) by (by apply last_Some_elem_of).
  destruct (qchain_in_dom _ _ _ Hq _ Htin) as [ot Hot].
  rewrite lookup_fmap in Hot. destruct (heap s !! tail s) as [bt|] eqn:Ht; [|done].
  assert (Hfr : heap s !! next_loc s = None).
  { destruct (heap s !! next_loc s) eqn:E; [|done]. destruct (Hall _ _ E). lia. }
  eexists. split; [by apply enqueue_exec_fresh|]. done.
Qed.

End Inv.
End SeqInv.

Module Frame.
Import Seq Inv SeqFacts.
Section Frame.
Context {T X : Type} `{!Elem T} (view : Block T -> X).

Lemma keeps_bind {A B} (m : M T A) (k : A -> M T B) :
  keeps view m -> (forall a, keeps view (k a)) -> keeps view (bind m k).
Proof.
  intros Hm Hk s b s'. unfold bind. destruct (m s) as [[a s1]|] eqn:E; [|done].
  intros H. rewrite (Hk a s1 b s' H). exact (Hm s a s1 E).
Qed.

Lemma keeps_ret {A} (a : A) : keeps view (ret a).
Proof. intros s b s' [= _ <-]. done. Qed.

Lemma keeps_load l : keeps view (load l).
Proof. intros s b s'. unfold load. destruct (heap s !! l); [|done]. by intros [= _ <-]. Qed.

Lemma keeps_get {A} (f : St T -> A) : keeps view (get f).
Proof. intros s b s' [= _ <-]. done. Qed.

Lemma keeps_put f : (forall s, heap (f s) = heap s) -> keeps view (put f).
Proof. intros Hf s b s' [= _ <-]. by rewrite Hf. Qed.

Lemma keeps_modify l g : (forall b, view (g b) = view b) -> keeps view (modify l g).
Proof.
  intros Hg s b s'. unfold modify. destruct (heap s !! l) as [b0|] eqn:E; [|done].
  intros [= _ <-]. cbn. rewrite fmap_insert, Hg. apply insert_id.
  by rewrite lookup_fmap, E.
Qed.

Lemma keeps_loop {L A} n (body : L -> M T (L + A)) l :
  (forall l, keeps view (body l)) -> keeps view (loop n body l).
Proof.
  intros Hb. revert l. induction n as [|n IH]; intros l; [by intros ? ? ?|].
  cbn [loop]. apply keeps_bind; [done|]. intros [l'|a]; [apply IH|apply keeps_ret].
Qed.

End Frame.

Ltac keeps_tac :=
  repeat first
    [ progress unfold load_refcnt, store_refcnt, fetch_sub_refcnt, cas_refcnt,
        load_node_next, store_node_next, load_block_next, store_block_next,
        load_top, cas_top, load_head, store_head, cas_head, exchange_tail,
        construct_elem, move_elem
    | apply keeps_bind; [|intros ?]
    | apply keeps_ret | apply keeps_load | apply keeps_get
    | apply keeps_put; intros []; reflexivity
    | apply keeps_modify; intros []; reflexivity
    | apply keeps_loop; intros ?
    | match goal with
      | |- keeps _ (if ?c then _ else _) => destruct c
      | |- keeps _ (match ?x with _ => _ end) => destruct x
      end ].

Section Links.
Context {T : Type} `{!Elem T}.

Lemma release_ref_keeps_block_next fuel u :
  keeps (@block_next T) (FreeList.release_ref fuel u).
Proof. unfold FreeList.release_ref. keeps_tac. Qed.

Lemma push_keeps_block_next fuel u :
  keeps (@block_next T) (FreeList.push fuel u).
Proof.
  unfold FreeList.push. apply keeps_bind; [apply release_ref_keeps_block_next|].
  intros _. apply keeps_ret.
Qed.

Lemma pop_keeps_block_next fuel : keeps (@block_next T) (FreeList.pop fuel).
Proof.
  unfold FreeList.pop. keeps_tac.
Qed.

Lemma _enqueue_keeps_node_next n (v : T) :
  keeps (@node_next T) (MPMCQueue._enqueue n v).
Proof. unfold MPMCQueue._enqueue. keeps_tac. Qed.

End Links.
End Frame.

(** * The claims on the sequential model *)
Module SeqClaims.
Import Seq Inv SeqTests SeqFacts SeqInv Frame.

(** A concrete [queue_inv] goal, with its chains given. *)
Ltac queue_inv_by ns fs :=
  exists ns, fs; split_and!;
  try (apply (bool_decide_unpack _); vm_compute; exact I);
  try (vm_compute; reflexivity);
  try (vm_compute; repeat split);
  try (vm_compute; repeat constructor).

Section Claims.
Context {T : Type} `{!Elem T}.

(** Single-threaded FIFO when no [head.compare_exchange_weak] fails
    spuriously ([try_dequeue] is [try_dequeue_weak []], see
    [try_dequeue_weak_nil]): for every list [vs], on a freshly created
    queue, enqueueing the values of [vs] in order and then calling
    try_dequeue [length vs + 1] times returns each value of [vs] in order
    with [true], and then [false]. *)
Lemma mpmc_fifo_no_spurious_failure fuel cap (vs : list T) :
  exists s0 s1,
    MPMCQueue.create (S fuel) cap = Some s0 /\
    (let! _ := Client.enqueue_all (S fuel) vs in
     Client.dequeue_n (S fuel) (S (length vs))) s0 =
      Some (((fun v => (true, v)) <$> vs) ++ [(false, elem_init)], s1).
Proof.
  destruct (create_inv fuel cap) as (s0 & Hs0 & Hinv0).
  destruct (enqueue_all_inv fuel vs s0 [] Hinv0) as (s1 & Hs1 & Hinv1).
  destruct (dequeue_all_inv fuel vs s1 Hinv1) as (s2 & Hs2).
  exists s0, s2. split; [done|].
  rewrite (bind_some _ _ _ _ _ Hs1). exact Hs2.
Qed.

(** C3, amended: the queue link and the pool link are two fields.
    [Block::next] shadows [FreeList::Node::next]: [release_ref], [push] and
    [pop] never change any block's [Block::next], and [_enqueue] never
    changes any block's [Node::next]. *)
Theorem queue_and_pool_links_separate fuel u n (v : T) :
  keeps (@block_next T) (FreeList.release_ref fuel u) /\
  keeps (@block_next T) (FreeList.push fuel u) /\
  keeps (@block_next T) (FreeList.pop fuel) /\
  keeps (@node_next T) (MPMCQueue._enqueue n v).
Proof.
  split; [apply release_ref_keeps_block_next|].
  split; [apply push_keeps_block_next|].
  split; [apply pop_keeps_block_next|apply _enqueue_keeps_node_next].
Qed.

(** C4: rewind law on an MPSC queue. On a quiet queue holding [x :: vs],
    try_dequeue returns [true] with [x]; then for every value [r] (in
    particular [r = x]), [rewind(r)] followed by try_dequeue returns [true]
    with [r], and the queue then holds [vs], the values not yet dequeued, in
    their original order. *)
Theorem mpsc_rewind_law fuel s x (vs : list T) (e e' : T) :
  queue_inv s (x :: vs) ->
  exists s1,
    MPSCQueue.try_dequeue (S fuel) e s = Some ((true, x), s1) /\
    forall r, exists s2 s3,
      MPSCQueue.rewind (S fuel) r s1 = Some (true, s2) /\
      queue_inv s2 (r :: vs) /\
      MPSCQueue.try_dequeue (S fuel) e' s2 = Some ((true, r), s3) /\
      queue_inv s3 vs.
Proof.
  intros Hinv. destruct (dequeue_inv fuel s x vs e Hinv) as (s1 & _ & Hs1 & Hinv1).
  exists s1. split; [done|]. intros r.
  destruct (rewind_inv fuel s1 vs r Hinv1) as (s2 & Hs2 & Hinv2).
  destruct (dequeue_inv fuel s2 r vs e' Hinv2) as (s3 & _ & Hs3 & Hinv3).
  by exists s2, s3.
Qed.

(** C5: emptiness. On a quiet queue, MPMC and MPSC try_dequeue return
    [false] exactly when the [next] link of the [head] block is null; in
    particular a freshly created queue (any pool capacity) answers [false]
    and is left as it was. *)
Theorem try_dequeue_false_iff_head_next_null fuel cap s vs (e : T) :
  queue_inv s vs ->
  (exists r s',
     MPMCQueue.try_dequeue (S fuel) e s = Some (r, s') /\
     MPSCQueue.try_dequeue (S fuel) e s = Some (r, s') /\
     (fst r = false <-> (block_next <$> heap s) !! head s = Some None)) /\
  (exists s0,
     MPMCQueue.create (S fuel) cap = Some s0 /\
     MPMCQueue.try_dequeue (S fuel) e s0 = Some ((false, e), s0)).
Proof.
  intros Hinv. split.
  - destruct vs as [|v vs].
    + destruct (dequeue_empty_inv fuel s e Hinv) as [H1 H2].
      exists (false, e), s. split_and!; [done|done|].
      destruct Hinv as (ns & fs & Hq & _ & _ & _ & He & _).
      unfold elems in He. inversion He; subst. cbn. split; [intros _; exact Hq|done].
    + destruct (dequeue_inv fuel s v vs e Hinv) as (s' & H1 & H2 & _).
      exists (true, v), s'. split_and!; [done|done|].
      destruct Hinv as (ns & fs & Hq & _ & _ & _ & He & _).
      unfold elems in He. inversion He; subst. destruct Hq as [Hq _].
      cbn. rewrite Hq. split; discriminate.
  - destruct (create_inv fuel cap) as (s0 & Hs0 & Hinv0).
    exists s0. split; [done|]. apply (dequeue_empty_inv fuel s0 e Hinv0).
Qed.

(** C6: pool exhaustion. On a quiet queue, try_enqueue returns [false]
    exactly when the FreeList is empty ([top] is null), and then leaves the
    state as it was; when it returns [true] the value is appended. enqueue
    always returns [true] and appends the value; when the FreeList is empty
    it takes a freshly allocated block, which becomes the new [tail]. *)
Theorem pool_exhaustion fuel s vs (v : T) :
  queue_inv s vs ->
  (exists r s', MPMCQueue.try_enqueue (S fuel) v s = Some (r, s')) /\
  (forall r s', MPMCQueue.try_enqueue (S fuel) v s = Some (r, s') ->
     (r = false <-> top s = None) /\
     (r = false -> s' = s) /\
     (r = true -> queue_inv s' (vs ++ [v]))) /\
  (exists s', MPMCQueue.enqueue (S fuel) v s = Some (true, s') /\
     queue_inv s' (vs ++ [v]) /\
     (top s = None ->
        heap s !! next_loc s = None /\ tail s' = next_loc s /\
        next_loc s' = (next_loc s + 1)%N)).
Proof.
  intros Hinv. split_and!.
  - destruct (try_enqueue_inv fuel s vs v Hinv) as [[_ H]|[_ (s' & H & _)]]; eauto.
  - intros r s' H.
    destruct (try_enqueue_inv fuel s vs v Hinv) as [[Ht H']|[Ht (s1 & H' & _ & Hinv1)]];
      rewrite H' in H; injection H as <- <-.
    + split_and!; done.
    + split_and!; [split; [discriminate|done]|discriminate|done].
  - destruct (enqueue_inv fuel s vs v Hinv) as (s' & Hs' & Hinv').
    exists s'. split_and!; [done|done|]. intros Ht.
    destruct (enqueue_fresh_alloc fuel s vs v Hinv Ht) as (s1 & Hs1 & H1 & H2 & H3).
    rewrite Hs1 in Hs'. injection Hs' as <-. done.
Qed.

(** C7: release_ref. On a block [u] whose refcount was [r], release_ref
    stores [r - 1] (modulo 2^64) and changes nothing else when [r <> 1]; when
    [r = 1] it pushes [u]: [u]'s FreeList [next] is the previous [top], [top]
    is [u], and [u]'s refcount is 1 again. *)
Theorem release_ref_spec fuel s u (b : Block T) :
  heap s !! u = Some b ->
  FreeList.release_ref (S fuel) u s =
    if Z.eqb (refcnt b) 1
    then Some (tt, set_top (Some u)
                     (set_heap (<[u := set_refcnt 1 (set_node_next (top s) b)]> (heap s)) s))
    else Some (tt, set_heap (<[u := set_refcnt (wrap (refcnt b - 1)) b]> (heap s)) s).
Proof. apply release_ref_exec. Qed.

(** C10: failure atomicity of MPMC try_dequeue. From any state whose
    refcounts are [size_t] values, a call of try_dequeue that returns
    [false] leaves the whole state (heap, [head], [tail], FreeList) and the
    caller's variable as they were. *)
Theorem try_dequeue_false_unchanged fuel s (e e' : T) s' :
  map_Forall (fun _ b => (0 <= refcnt b < 2 ^ 64)%Z) (heap s) ->
  MPMCQueue.try_dequeue fuel e s = Some ((false, e'), s') ->
  s' = s /\ e' = e.
Proof.
  intros Hr. unfold MPMCQueue.try_dequeue. generalize fuel at 1 as n. intros n.
  revert e. induction n as [|n IH]; intros e H; [discriminate|].
  cbn [loop] in H. unfold bind at 1 in H.
  destruct (heap s !! head s) as [bh|] eqn:Hh.
  2: { by rewrite try_dequeue_body_no_head in H. }
  destruct (Z.eq_dec (refcnt bh) 0%Z) as [Ht|Ht].
  { rewrite (try_dequeue_body_zero fuel e s bh Hh Ht) in H. by apply IH. }
  destruct (block_next bh) as [n'|] eqn:Hn.
  - pose proof (try_dequeue_body_nonempty fuel e s bh n' Hh Ht Hn) as Hc.
    destruct (MPMCQueue.try_dequeue_body fuel e s) as [[[l|[[] x]] s1]|];
      try contradiction; discriminate.
  - rewrite (try_dequeue_body_empty fuel e s bh Hh Ht (Hr _ _ Hh) Hn) in H.
    injection H as <- <-. done.
Qed.

End Claims.

(** C3 counterexample: after [enqueue(5); try_dequeue(x)] on a queue created
    with an empty pool, block 0 (the old dummy) is at the top of the
    FreeList with a null FreeList link while its queue link still points at
    block 1: the two links hold different values at once. *)
Lemma single_link_counterexample :
  (let! _ := MPMCQueue.enqueue 1 5%Z in MPMCQueue.try_dequeue 1 0%Z)
    constructed_head = Some ((true, 5%Z), one_dequeued) /\
  top one_dequeued = Some 0%N /\
  (node_next <$> heap one_dequeued) !! 0%N = Some None /\
  (block_next <$> heap one_dequeued) !! 0%N = Some (Some 1%N).
Proof. vm_compute. split_and!; reflexivity. Qed.

Lemma mpsc_rewind_law_witness :
  queue_inv three_queued [10; 20; 30]%Z /\
  exists s1,
    MPSCQueue.try_dequeue 1 0%Z three_queued = Some ((true, 10%Z), s1) /\
    forall r, exists s2 s3,
      MPSCQueue.rewind 1 r s1 = Some (true, s2) /\
      queue_inv s2 (r :: [20; 30]%Z) /\
      MPSCQueue.try_dequeue 1 0%Z s2 = Some ((true, r), s3) /\
      queue_inv s3 [20; 30]%Z.
Proof.
  split; [queue_inv_by [1; 2; 3]%N (@nil loc)|].
  apply (mpsc_rewind_law 0 three_queued 10%Z [20; 30]%Z 0%Z 0%Z).
  queue_inv_by [1; 2; 3]%N (@nil loc).
Defined.

Lemma try_dequeue_false_iff_head_next_null_witness :
  queue_inv (T := Z) constructed_head [] /\
  (exists r s',
     MPMCQueue.try_dequeue 1 0%Z constructed_head = Some (r, s') /\
     MPSCQueue.try_dequeue 1 0%Z constructed_head = Some (r, s') /\
     (fst r = false <->
        (block_next <$> heap constructed_head) !! head constructed_head = Some None)) /\
  (exists s0,
     MPMCQueue.create 1 0 = Some s0 /\
     MPMCQueue.try_dequeue 1 0%Z s0 = Some ((false, 0%Z), s0)).
Proof.
  split; [queue_inv_by (@nil loc) (@nil loc)|].
  apply (try_dequeue_false_iff_head_next_null 0 0 constructed_head [] 0%Z).
  queue_inv_by (@nil loc) (@nil loc).
Defined.

Lemma pool_exhaustion_witness :
  queue_inv (T := Z) constructed_head [] /\
  (exists r s', MPMCQueue.try_enqueue 1 5%Z constructed_head = Some (r, s')) /\
  (forall r s', MPMCQueue.try_enqueue 1 5%Z constructed_head = Some (r, s') ->
     (r = false <-> top constructed_head = None) /\
     (r = false -> s' = constructed_head) /\
     (r = true -> queue_inv s' [5%Z])) /\
  (exists s', MPMCQueue.enqueue 1 5%Z constructed_head = Some (true, s') /\
     queue_inv s' [5%Z] /\
     (top constructed_head = None ->
        heap constructed_head !! next_loc constructed_head = None /\
        tail s' = next_loc constructed_head /\
        next_loc s' = (next_loc constructed_head + 1)%N)).
Proof.
  split; [queue_inv_by (@nil loc) (@nil loc)|].
  apply (pool_exhaustion 0 constructed_head [] 5%Z).
  queue_inv_by (@nil loc) (@nil loc).
Defined.

Lemma release_ref_spec_witness :
  heap (T := Z) constructed_head !! 0%N = Some (set_block_next None new_block) /\
  FreeList.release_ref 1 0%N constructed_head =
    Some (tt, set_top (Some 0%N)
                (set_heap (<[0%N := set_refcnt 1 (set_node_next None
                                     (set_block_next None new_block))]>
                             (heap constructed_head)) constructed_head)).
Proof.
  split; [vm_compute; reflexivity|].
  apply (release_ref_spec 0 constructed_head 0%N (set_block_next None new_block)).
  vm_compute. reflexivity.
Defined.

Lemma try_dequeue_false_unchanged_witness :
  map_Forall (fun _ b => (0 <= refcnt b < 2 ^ 64)%Z) (heap (T := Z) constructed_head) /\
  MPMCQueue.try_dequeue 1 0%Z constructed_head = Some ((false, 0%Z), constructed_head) /\
  (constructed_head = constructed_head /\ 0%Z = 0%Z).
Proof.
  assert (Hr : map_Forall (fun _ b => (0 <= refcnt b < 2 ^ 64)%Z)
                 (heap (T := Z) constructed_head))
    by (apply (bool_decide_unpack _); vm_compute; exact I).
  assert (Hd : MPMCQueue.try_dequeue 1 0%Z constructed_head =
               Some ((false, 0%Z), constructed_head)) by (vm_compute; reflexivity).
  split; [exact Hr|]. split; [exact Hd|].
  apply (try_dequeue_false_unchanged 1 constructed_head 0%Z 0%Z constructed_head Hr Hd).
Defined.

(** C1 (code bug): single-threaded FIFO fails when a
    [head.compare_exchange_weak] fails spuriously.  On an
    [MPMCQueue<std::unique_ptr<int>>] of capacity 4 (pointers to 1, 2, 3
    written [Some 1], [Some 2], [Some 3], null written [None]), one thread
    enqueues 1, 2, 3 and calls try_dequeue four times.  In the first call
    the head CAS fails spuriously once: the payload of the block after the
    dummy has already been moved into [x] (queue.h:155), so the retry moves
    the moved-from null pointer again and the call returns [true] with
    null.  The pointer to 1 is lost and never dequeued; the later calls,
    without spurious failure, return 2, 3 and then [false]. *)
Theorem mpmc_fifo_lost_on_spurious_failure :
  (MPMCQueue.create 10 4 ≫= fun s0 =>
     fst <$> (let! _ := Client.enqueue_all 10 [Some 1; Some 2; Some 3]%Z in
              let! r := MPMCQueue.try_dequeue_weak 10 [true] elem_init in
              let! rs := Client.dequeue_n 10 3 in
              ret (r :: rs)) s0) =
  Some [(true, None); (true, Some 2%Z); (true, Some 3%Z); (false, None)].
Proof. vm_compute. reflexivity. Qed.

(** C2 (code bug): the round trip fails when a
    [head.compare_exchange_weak] fails spuriously.  On an empty, freshly
    created [MPMCQueue<std::unique_ptr<int>>] of capacity 4, [enqueue(p)]
    with [p] pointing to 5, then [try_dequeue(x)] whose first head CAS fails
    spuriously: the first round moves [p] out of the block into [x], the
    retry moves the null pointer left behind, and the call returns [true]
    with [x] null, not [p]. *)
Theorem roundtrip_lost_on_spurious_failure :
  (MPMCQueue.create 10 4 ≫= fun s0 =>
     fst <$> (let! _ := MPMCQueue.enqueue 10 (Some 5%Z) in
              MPMCQueue.try_dequeue_weak 10 [true] None) s0) =
  Some (true, None).
Proof. vm_compute. reflexivity. Qed.

End SeqClaims.

(** ** Concurrent runs *)
Module ConcFacts.
Import Conc.
Section Counts.
Context {T : Type} `{!EqDecision T}.

Lemma filter_length_perm {A} (f : A -> bool) (l l' : list A) :
  l ≡ₚ l' -> length (List.filter f l) = length (List.filter f l').
Proof.
  induction 1 as [|x l l' _ IH|x y l|l l' l'' _ IH1 _ IH2]; cbn.
  - reflexivity.
  - destruct (f x); cbn; lia.
  - destruct (f x), (f y); cbn; lia.
  - lia.
Qed.

(** A legal sequential run dequeues [v] at most as often as [v] was in the
    queue at the start or is enqueued. *)
Lemma fifo_legal_counts (v : T) (h : list (op T * outcome T)) :
  forall q, fifo_legal q h = true ->
  deq_count v h <= length (List.filter (fun x => bool_decide (x = v)) q) + enq_count v h.
Proof.
  unfold deq_count, enq_count.
  induction h as [|[o r] h IH]; intros q Hl; cbn; [lia|].
  destruct o as [w|]; destruct r as [b|[b w']]; cbn in Hl; try discriminate;
    destruct b; try discriminate.
  - specialize (IH _ Hl). rewrite List.filter_app, length_app in IH. cbn in IH.
    case_bool_decide; cbn in *; lia.
  - destruct q as [|x q]; [discriminate|].
    apply andb_prop in Hl as [Hx Hl]. apply bool_decide_eq_true in Hx. subst x.
    specialize (IH _ Hl). cbn. case_bool_decide; cbn; lia.
  - destruct q as [|x q]; [|discriminate]. exact (IH _ Hl).
Qed.

(** So a history that dequeues some value more often than it enqueues it
    has no order legal for a FIFO queue: it is not linearizable. *)
Lemma no_fifo_order (v : T) (h : list (op T * outcome T)) :
  enq_count v h < deq_count v h -> ~ has_fifo_order h.
Proof.
  intros Hc [lin [Hp Hl]].
  pose proof (fifo_legal_counts v lin [] Hl) as Hle. cbn in Hle.
  unfold enq_count, deq_count in *.
  rewrite (filter_length_perm _ _ _ Hp), (filter_length_perm (is_enq_of v) _ _ Hp) in Hle.
  lia.
Qed.

End Counts.
End ConcFacts.

Module ConcClaims.
Import Conc ConcTests ConcFacts.

(** C8 (refuted): in the capacity-1 run [fs0_schedule], block 1 has
    refcount 0, and the next step of thread 0, which runs
    [MPMCQueue::try_dequeue], moves it to 2^64 - 1: the [fetch_sub] of the
    [release_ref] after a refcount CAS that succeeded on a recycled block.
    The refcount leaves 0 by a transition other than the pusher's store
    of 1. *)
Theorem zero_refcnt_fetch_sub :
  ((init conc_fuel 1 fs0_scripts ≫= run fs0_schedule) ≫= (fun c => refcnt_at c 1%N))
    = Some 0%Z /\
  ((init conc_fuel 1 fs0_scripts ≫= run (fs0_schedule ++ [0])) ≫= (fun c => refcnt_at c 1%N))
    = Some (2 ^ 64 - 1)%Z /\
  fs0_scripts !! 0 = Some [Deq].
Proof. split_and!; vm_compute; reflexivity. Qed.

(** C9 (refuted): in the capacity-0 run [dup_schedule] both threads
    finish; the value 1, enqueued once, is returned by two successful
    dequeues, so no order of the five calls is legal for a FIFO queue (the
    history is not linearizable); and the final dummy block [head] is also
    at the top of the FreeList, so the next [enqueue] would reuse it. *)
Theorem mpmc_duplicate_dequeue :
  (init conc_fuel 0 dup_scripts ≫= run dup_schedule) = Some dup_final /\
  history dup_scripts dup_final =
    Some [(Enq 1%Z, Enqueued true); (Deq, Dequeued (true, 1%Z));
          (Enq 2%Z, Enqueued true); (Deq, Dequeued (true, 2%Z));
          (Deq, Dequeued (true, 1%Z))] /\
  ~ has_fifo_order [(Enq 1%Z, Enqueued true); (Deq, Dequeued (true, 1%Z));
                    (Enq 2%Z, Enqueued true); (Deq, Dequeued (true, 2%Z));
                    (Deq, Dequeued (true, 1%Z))] /\
  top (shared dup_final) = Some (head (shared dup_final)).
Proof.
  split_and!; [vm_compute; reflexivity|vm_compute; reflexivity| |vm_compute; reflexivity].
  apply (no_fifo_order 1%Z). vm_compute. lia.
Qed.

End ConcClaims.

(** ** Sequential model: the pool and the heap *)
Module SeqFull.
Import Seq Inv SeqFacts SeqInv Bounded Seq.Calls.
Section Full.
Context {T : Type} `{!Elem T}.
Implicit Types (s : St T) (vs : list T) (nx nn : gmap loc (option loc)) (ns fs : list loc).

Lemma queue_at_inv s vs ns fs : queue_at s vs ns fs -> queue_inv s vs.
Proof. intros (Hq & Hl & Hf & Hnd & He & Hall & _). by exists ns, fs. Qed.



Lemma at_post_enqueue s vs ns fs' f bf bt v top' nl' :
  qchain (block_next <$> heap s) (head s) ns ->
  list.last (head s :: ns) = Some (tail s) ->
  fchain (node_next <$> <[f:=bf]> (heap s)) top' fs' ->
  NoDup (head s :: ns ++ f :: fs') ->
  elems (elem <$> heap s) ns vs ->
  heap s !! tail s = Some bt ->
  map_Forall (fun l b => refcnt b = 1%Z /\ (l < nl')%N) (heap s) ->
  refcnt bf = 1%Z -> (f < nl')%N ->
  {[f]} ∪ dom (heap s) = list_to_set (head s :: ns ++ f :: fs') ->
  queue_at (mkSt (<[tail s := set_block_next (Some f) bt]>
                    (<[f := set_block_next None (set_elem v bf)]> (heap s)))
                  top' (head s) f nl') (vs ++ [v]) (ns ++ [f]) fs'.
Proof.
  intros Hq Hl Hf Hnd He Ht Hall Hr Hlt Hd.
  pose proof Hnd as Hnd0. rewrite app_comm_cons in Hnd.
  apply list.NoDup_app in Hnd as (Hnd1 & Hdisj & Hnd2).
  assert (Hfn : f ∉ head s :: ns) by (intros Hin; apply (Hdisj f Hin); left).
  assert (Htf : f <> tail s)
    by (intros Heq; apply Hfn; rewrite Heq; by apply last_Some_elem_of).
  assert (Htd : tail s ∈ dom (heap s)) by (by apply elem_of_dom_2 with bt).
  rewrite fmap_insert in Hf.
  unfold queue_at. cbn [heap head tail top next_loc]. rewrite !fmap_insert.
  cbn [block_next node_next elem set_block_next set_elem].
  split; [|split; [|split; [|split; [|split; [|split]]]]].
  - by apply qchain_snoc.
  - rewrite app_comm_cons. apply last_snoc.
  - rewrite (insert_id _ (tail s)); [done|].
    rewrite lookup_insert_ne by done. by rewrite lookup_fmap, Ht.
  - by rewrite <- app_assoc.
  - rewrite (insert_id _ (tail s)).
    + apply Forall2_app; [apply elems_insert_notin; [set_solver|done]|].
      constructor; [apply lookup_insert_eq|constructor].
    + rewrite lookup_insert_ne by done. by rewrite lookup_fmap, Ht.
  - apply map_Forall_insert_2; [apply (Hall _ _ Ht)|].
    apply map_Forall_insert_2; [done|done].
  - rewrite !dom_insert_L, <- app_assoc. cbn [app]. rewrite <- Hd. set_solver.
Qed.

Lemma enqueue_at fuel s vs ns fs v :
  queue_at s vs ns fs ->
  exists s' ns' fs', MPMCQueue.enqueue (S fuel) v s = Some (true, s') /\
    queue_at s' (vs ++ [v]) ns' fs' /\ length fs' = pred (length fs).
Proof.
  intros (Hq & Hl & Hf & Hnd & He & Hall & Hd).
  assert (Htin : tail s ∈ head s :: ns) by (by apply last_Some_elem_of).
  destruct (qchain_in_dom _ _ _ Hq _ Htin) as [ot Hot].
  rewrite lookup_fmap in Hot. destruct (heap s !! tail s) as [bt|] eqn:Ht; [|done].
  destruct fs as [|f fs']; simpl in Hf.
  - assert (Hfr : heap s !! next_loc s = None).
    { destruct (heap s !! next_loc s) eqn:E; [|done]. destruct (Hall _ _ E). lia. }
    assert (Hfn : next_loc s ∉ head s :: ns).
    { intros Hin. destruct (qchain_in_dom _ _ _ Hq _ Hin) as [? Hx].
      by rewrite lookup_fmap, Hfr in Hx. }
    eexists _, _, []. split; [by apply enqueue_exec_fresh|]. split; [|done].
    apply at_post_enqueue; try done.
    + rewrite app_comm_cons. rewrite app_nil_r in Hnd. by apply NoDup_snoc_notin.
    + apply (map_Forall_impl _ _ _ Hall). intros ? ? [? ?]; split; [done|lia].
    + lia.
    + rewrite Hd. set_solver.
  - destruct Hf as (Htop & q & Hq' & Hf). rewrite lookup_fmap in Hq'.
    destruct (heap s !! f) as [bf|] eqn:Hbf; [|done]. injection Hq' as <-.
    destruct (Hall _ _ Hbf) as [Hr Hlt].
    assert (f <> tail s).
    { pose proof Hnd as Hnd'. rewrite app_comm_cons in Hnd'.
      apply list.NoDup_app in Hnd' as (_ & Hdj & _).
      intros Heq. apply (Hdj (tail s) Htin). rewrite Heq. left. }
    eexists _, _, fs'. split; [by eapply enqueue_exec_pool|]. split; [|done].
    apply at_post_enqueue; try done.
    + by rewrite insert_id.
    + rewrite Hd. set_solver.
Qed.

Lemma try_enqueue_at fuel s vs ns fs v :
  queue_at s vs ns fs ->
  (fs = [] /\ MPMCQueue.try_enqueue (S fuel) v s = Some (false, s)) \/
  (exists s' ns' fs', MPMCQueue.try_enqueue (S fuel) v s = Some (true, s') /\
     queue_at s' (vs ++ [v]) ns' fs' /\ length fs' = pred (length fs) /\ fs <> []).
Proof.
  intros Hat. pose proof Hat as (_ & _ & Hf & _).
  destruct (try_enqueue_inv fuel s vs v (queue_at_inv _ _ _ _ Hat))
    as [[Ht H]|[Ht (s1 & H1 & H2 & _)]].
  - left. split; [|done]. destruct fs as [|f fs]; [done|]. cbn in Hf. destruct Hf as [Hf _].
    congruence.
  - right. destruct (enqueue_at fuel s vs ns fs v Hat) as (s' & ns' & fs' & Hs' & Hat' & Hl').
    rewrite H2 in Hs'. injection Hs' as <-. exists s1, ns', fs'. split_and!; try done.
    intros ->. cbn in Hf. done.
Qed.

Lemma dequeue_at fuel s v vs ns fs e :
  queue_at s (v :: vs) ns fs ->
  exists s' ns' fs',
    MPMCQueue.try_dequeue (S fuel) e s = Some ((true, v), s') /\
    MPSCQueue.try_dequeue (S fuel) e s = Some ((true, v), s') /\
    queue_at s' vs ns' fs' /\ length fs' = S (length fs).
Proof.
  intros (Hq & Hl & Hf & Hnd & He & Hall & Hd).
  destruct ns as [|n ns]; [inversion He|].
  unfold elems in He. inversion He as [|? ? ? ? Hev He']; subst.
  destruct Hq as [Hh Hq]. rewrite lookup_fmap in Hh.
  destruct (heap s !! head s) as [bh|] eqn:Hbh; [|done]. injection Hh as Hbn.
  rewrite lookup_fmap in Hev.
  destruct (heap s !! n) as [bn|] eqn:Hbnn; [|done]. injection Hev as <-.
  destruct (Hall _ _ Hbh) as [Hr _].
  pose proof Hnd as Hnd0.
  inversion Hnd as [|? ? Hhn Hnd']; subst.
  inversion Hnd' as [|? ? Hnn Hnd'']; subst.
  assert (n <> head s) by set_solver.
  assert (Hhd : head s ∈ dom (heap s)) by (by apply elem_of_dom_2 with bh).
  assert (Hnd2 : n ∈ dom (heap s)) by (by apply elem_of_dom_2 with bn).
  eexists _, ns, (head s :: fs). split; [by eapply try_dequeue_exec_some|].
  split; [by eapply mpsc_try_dequeue_exec_some|]. split; [|done].
  unfold queue_at. cbn [heap head tail top next_loc]. rewrite !fmap_insert.
  cbn [block_next node_next elem set_node_next set_elem].
  split; [|split; [|split; [|split; [|split; [|split]]]]].
  - rewrite (insert_id _ n) by (by rewrite lookup_fmap, Hbnn).
    rewrite (insert_id _ (head s)) by (by rewrite lookup_fmap, Hbh). done.
  - exact Hl.
  - rewrite (insert_id _ n) by (by rewrite lookup_fmap, Hbnn).
    split; [done|]. exists (top s). rewrite lookup_insert_eq. split; [done|].
    apply fchain_insert_notin; [set_solver|done].
  - change (NoDup ((n :: ns) ++ head s :: fs)). rewrite <- Permutation_middle. done.
  - apply elems_insert_notin; [set_solver|]. apply elems_insert_notin; [set_solver|done].
  - apply map_Forall_insert_2; [apply (Hall _ _ Hbh)|].
    apply map_Forall_insert_2; [apply (Hall _ _ Hbnn)|done].
  - rewrite !dom_insert_L, Hd. set_solver.
Qed.
Lemma at_post_rewind s vs ns fs' f bf bh v top' nl' :
  qchain (block_next <$> heap s) (head s) ns ->
  list.last (head s :: ns) = Some (tail s) ->
  fchain (node_next <$> <[f:=bf]> (heap s)) top' fs' ->
  NoDup (head s :: ns ++ f :: fs') ->
  elems (elem <$> heap s) ns vs ->
  heap s !! head s = Some bh ->
  map_Forall (fun l b => refcnt b = 1%Z /\ (l < nl')%N) (heap s) ->
  refcnt bf = 1%Z -> (f < nl')%N ->
  {[f]} ∪ dom (heap s) = list_to_set (head s :: ns ++ f :: fs') ->
  queue_at (mkSt (<[f := set_block_next (Some (head s)) bf]>
                    (<[head s := set_elem v bh]> (heap s)))
                  top' f (tail s) nl') (v :: vs) (head s :: ns) fs'.
Proof.
  intros Hq Hl Hf Hnd He Hh Hall Hr Hlt Hd.
  change (NoDup ((head s :: ns) ++ f :: fs')) in Hnd.
  rewrite <- Permutation_middle in Hnd.
  pose proof Hnd as Hnd0.
  inversion Hnd as [|? ? Hfn Hnd']; subst.
  assert (f <> head s) by set_solver.
  inversion Hnd' as [|? ? Hhn _]; subst.
  assert (Hhd : head s ∈ dom (heap s)) by (by apply elem_of_dom_2 with bh).
  rewrite fmap_insert in Hf.
  unfold queue_at. cbn [heap head tail top next_loc]. rewrite !fmap_insert.
  cbn [block_next node_next elem set_block_next set_elem].
  split; [|split; [|split; [|split; [|split; [|split]]]]].
  - rewrite (insert_id _ (head s)) by (by rewrite lookup_fmap, Hh).
    split; [apply lookup_insert_eq|]. apply qchain_insert_notin; [set_solver|done].
  - exact Hl.
  - by rewrite (insert_id _ (head s)) by (by rewrite lookup_fmap, Hh).
  - done.
  - apply elems_insert_notin; [set_solver|]. constructor; [apply lookup_insert_eq|].
    apply elems_insert_notin; [set_solver|done].
  - apply map_Forall_insert_2; [done|].
    apply map_Forall_insert_2; [apply (Hall _ _ Hh)|done].
  - rewrite !dom_insert_L, union_assoc_L, (union_comm_L {[f]}), <- union_assoc_L, Hd.
    set_solver.
Qed.

Lemma rewind_at fuel s vs ns fs v :
  queue_at s vs ns fs ->
  exists s' fs', MPSCQueue.rewind (S fuel) v s = Some (true, s') /\
    queue_at s' (v :: vs) (head s :: ns) fs' /\ length fs' = pred (length fs).
Proof.
  intros (Hq & Hl & Hf & Hnd & He & Hall & Hd).
  destruct (qchain_in_dom _ _ _ Hq (head s) ltac:(left)) as [oh Hoh].
  rewrite lookup_fmap in Hoh. destruct (heap s !! head s) as [bh|] eqn:Hh; [|done].
  destruct fs as [|f fs']; simpl in Hf.
  - assert (Hfr : heap s !! next_loc s = None).
    { destruct (heap s !! next_loc s) eqn:E; [|done].
      destruct (Hall _ _ E). lia. }
    assert (Hfn : next_loc s ∉ head s :: ns).
    { intros Hin. destruct (qchain_in_dom _ _ _ Hq _ Hin) as [? Hx].
      by rewrite lookup_fmap, Hfr in Hx. }
    eexists _, []. split; [eapply rewind_exec_fresh; eauto|]. split; [|done].
    apply at_post_rewind; try done.
    + rewrite app_comm_cons. rewrite app_nil_r in Hnd. by apply NoDup_snoc_notin.
    + apply (map_Forall_impl _ _ _ Hall). intros ? ? [? ?]; split; [done|lia].
    + lia.
    + rewrite Hd. set_solver.
  - destruct Hf as (Htop & q & Hq' & Hf). rewrite lookup_fmap in Hq'.
    destruct (heap s !! f) as [bf|] eqn:Hbf; [|done]. injection Hq' as <-.
    destruct (Hall _ _ Hbf) as [Hr Hlt].
    assert (f <> head s).
    { pose proof Hnd as Hnd'. inversion Hnd' as [|? ? Hx _]; subst. set_solver. }
    eexists _, fs'. split; [by eapply rewind_exec_pool|]. split; [|done].
    apply at_post_rewind; try done.
    + by rewrite insert_id.
    + rewrite Hd. set_solver.
Qed.

Lemma push_fresh_at fuel s vs ns fs :
  queue_at s vs ns fs ->
  exists s', (let! b := alloc in FreeList.push (S fuel) b) s = Some (true, s') /\
             queue_at s' vs ns (next_loc s :: fs).
Proof.
  intros (Hq & Hl & Hf & Hnd & He & Hall & Hd).
  assert (Hfr : heap s !! next_loc s = None).
  { destruct (heap s !! next_loc s) eqn:E; [|done]. destruct (Hall _ _ E). lia. }
  assert (Hnl : next_loc s ∉ head s :: ns ++ fs).
  { intros Hin. rewrite <- (elem_of_list_to_set (C := gset loc)), <- Hd in Hin.
    apply elem_of_dom in Hin as [? Hx]. congruence. }
  eexists. split.
  { simp_heap. }
  unfold queue_at. cbn [set_top set_heap heap head tail top next_loc].
  rewrite !fmap_insert. cbn [block_next node_next elem refcnt set_refcnt set_node_next new_block].
  split; [|split; [|split; [|split; [|split; [|split]]]]].
  - apply qchain_insert_notin; [set_solver|done].
  - done.
  - split; [done|]. exists (top s). rewrite lookup_insert_eq. split; [done|].
    apply fchain_insert_notin; [set_solver|done].
  - change (NoDup ((head s :: ns) ++ next_loc s :: fs)).
    rewrite <- Permutation_middle. by constructor.
  - apply elems_insert_notin; [set_solver|done].
  - apply map_Forall_insert_2; [cbn; split; [done|lia]|].
    apply (map_Forall_impl _ _ _ Hall). intros ? ? [? ?]; split; [done|lia].
  - rewrite !dom_insert_L, Hd. set_solver.
Qed.

Lemma fill_at fuel cap s vs ns fs :
  queue_at s vs ns fs ->
  exists s' fs', MPMCQueue.fill (S fuel) cap s = Some (tt, s') /\
    queue_at s' vs ns fs' /\ length fs' = cap + length fs.
Proof.
  revert s fs; induction cap as [|cap IH]; intros s fs Hat; [by exists s, fs|].
  destruct (push_fresh_at fuel s vs ns fs Hat) as (s1 & Hs1 & Hat1).
  destruct (IH s1 _ Hat1) as (s' & fs' & Hs' & Hat' & Hlen).
  exists s', fs'. split; [|split; [done|cbn in Hlen; lia]]. cbn [MPMCQueue.fill].
  unfold bind at 1. cbn [alloc]. unfold bind in Hs1 at 1. cbn [alloc] in Hs1.
  unfold bind at 1. destruct (FreeList.push (S fuel) _ _) as [[? ?]|]; [|done].
  injection Hs1 as -> ->. done.
Qed.

Lemma create_at fuel cap :
  exists s fs, MPMCQueue.create (S fuel) cap = Some s /\ queue_at s [] [] fs /\
               length fs = cap.
Proof.
  assert (Hat : queue_at constructed_head [] [] []).
  { unfold queue_at, constructed_head. cbn [heap head tail top next_loc].
    rewrite !fmap_insert, fmap_empty. cbn [block_next node_next elem set_block_next new_block].
    split; [cbn [qchain]; by rewrite lookup_insert_eq|].
    split; [done|]. split; [done|]. split; [apply NoDup_singleton|].
    split; [constructor|].
    rewrite insert_insert_eq. split.
    - apply map_Forall_insert_2; [cbn; split; [done|lia]|]. apply map_Forall_empty.
    - rewrite dom_insert_L, dom_empty_L. set_solver. }
  destruct (fill_at fuel cap _ [] [] [] Hat) as (s & fs & Hs & Hat' & Hlen).
  exists s, fs. split; [|split; [done|cbn in Hlen; lia]]. unfold MPMCQueue.create.
  change (MPMCQueue.construct (S fuel) cap MPMCQueue.empty_state)
    with (MPMCQueue.fill (S fuel) cap constructed_head).
  by rewrite Hs.
Qed.
Lemma queue_at_size s vs ns fs :
  queue_at s vs ns fs -> size (heap s) = S (length vs + length fs).
Proof.
  intros (_ & _ & _ & Hnd & He & _ & Hd).
  rewrite <- (size_dom (D := gset loc)), Hd, size_list_to_set by done.
  cbn. rewrite length_app. unfold elems in He. by rewrite (Forall2_length He).
Qed.






Lemma call_at fuel s vs ns fs c :
  queue_at s vs ns fs ->
  exists s' ns' fs',
    Calls.call_method (S fuel) c s = Some ((bstep (vs, length fs) c).1, s') /\
    queue_at s' (bstep (vs, length fs) c).2.1 ns' fs' /\
    length fs' = (bstep (vs, length fs) c).2.2.
Proof.
  intros Hat. destruct c as [v|v| | |v]; cbn [Calls.call_method bstep fst snd].
  - destruct (enqueue_at fuel s vs ns fs v Hat) as (s' & ns' & fs' & Hs & Hat' & Hl).
    exists s', ns', fs'. rewrite (bind_some _ _ _ _ _ Hs). split_and!; [done|done|].
    by rewrite Hl.
  - destruct (try_enqueue_at fuel s vs ns fs v Hat)
      as [[-> Hs]|(s' & ns' & fs' & Hs & Hat' & Hl & Hne)].
    + exists s, ns, []. by rewrite (bind_some _ _ _ _ _ Hs).
    + destruct fs as [|f fs]; [done|]. cbn [length] in *.
      exists s', ns', fs'. by rewrite (bind_some _ _ _ _ _ Hs).
  - destruct vs as [|v vs].
    + exists s, ns, fs.
      pose proof (proj1 (dequeue_empty_inv fuel s elem_init (queue_at_inv _ _ _ _ Hat))) as Hs.
      rewrite try_dequeue_weak_nil in Hs. by rewrite (bind_some _ _ _ _ _ Hs).
    + destruct (dequeue_at fuel s v vs ns fs elem_init Hat)
        as (s' & ns' & fs' & Hs & _ & Hat' & Hl).
      rewrite try_dequeue_weak_nil in Hs.
      exists s', ns', fs'. by rewrite (bind_some _ _ _ _ _ Hs).
  - destruct vs as [|v vs].
    + exists s, ns, fs. rewrite (bind_some _ _ _ _ _
        (proj2 (dequeue_empty_inv fuel s elem_init (queue_at_inv _ _ _ _ Hat)))).
      done.
    + destruct (dequeue_at fuel s v vs ns fs elem_init Hat)
        as (s' & ns' & fs' & _ & Hs & Hat' & Hl).
      exists s', ns', fs'. by rewrite (bind_some _ _ _ _ _ Hs).
  - destruct (rewind_at fuel s vs ns fs v Hat) as (s' & fs' & Hs & Hat' & Hl).
    exists s', (head s :: ns), fs'. rewrite (bind_some _ _ _ _ _ Hs). split_and!; [done|done|].
    by rewrite Hl.
Qed.

Lemma run_calls_at fuel cs s vs ns fs :
  queue_at s vs ns fs ->
  exists s' ns' fs',
    Calls.run_calls (S fuel) cs s = Some ((brun (vs, length fs) cs).1, s') /\
    queue_at s' (brun (vs, length fs) cs).2.1 ns' fs' /\
    length fs' = (brun (vs, length fs) cs).2.2.
Proof.
  revert s vs ns fs; induction cs as [|c cs IH]; intros s vs ns fs Hat.
  - by exists s, ns, fs.
  - destruct (call_at fuel s vs ns fs c Hat) as (s1 & ns1 & fs1 & Hs1 & Hat1 & Hl1).
    destruct (IH s1 _ _ _ Hat1) as (s' & ns' & fs' & Hs' & Hat' & Hl').
    exists s', ns', fs'. cbn [Calls.run_calls brun].
    rewrite (bind_some _ _ _ _ _ Hs1), (bind_some _ _ _ _ _ Hs').
    destruct (bstep (vs, length fs) c) as [r [vs1 p1]] eqn:Eb. cbn [fst snd] in *.
    rewrite Hl1 in *. destruct (brun (vs1, p1) cs) as [rs [vs' p']]. done.
Qed.

Lemma reached_at fuel cap cs :
  exists s ns fs,
    (MPMCQueue.create (S fuel) cap ≫= fun s0 => Calls.run_calls (S fuel) cs s0) =
      Some ((brun ([], cap) cs).1, s) /\
    queue_at s (brun ([], cap) cs).2.1 ns fs /\ length fs = (brun ([], cap) cs).2.2.
Proof.
  destruct (create_at fuel cap) as (s0 & fs0 & Hc & Hat0 & Hl0).
  destruct (run_calls_at fuel cs s0 [] [] fs0 Hat0) as (s & ns & fs & Hs & Hat & Hl).
  exists s, ns, fs. rewrite Hc. cbn. rewrite Hl0 in Hs, Hat, Hl. by rewrite Hs.
Qed.
Lemma brun_try_enqueue us p (vs : list T) :
  (brun (us, p) (map TryEnqueue vs)).1 =
    repeat (Done true) (min p (length vs)) ++ repeat (Done false) (length vs - p).
Proof.
  revert us p; induction vs as [|v vs IH]; intros us p; [by destruct p|].
  cbn [map brun bstep]. destruct p as [|p].
  - specialize (IH us 0). destruct (brun (us, 0) (map TryEnqueue vs)) as [rs q].
    cbn in IH |- *. by rewrite IH, Nat.sub_0_r.
  - specialize (IH (us ++ [v]) p). destruct (brun (us ++ [v], p) (map TryEnqueue vs)) as [rs q].
    cbn in IH |- *. by rewrite IH.
Qed.

Lemma brun_conserves us p (cs : list (call T)) :
  forallb (fun c => negb (allocates c)) cs = true ->
  length (brun (us, p) cs).2.1 + (brun (us, p) cs).2.2 = length us + p.
Proof.
  revert us p; induction cs as [|c cs IH]; intros us p Hc; [done|].
  cbn [forallb] in Hc. apply andb_prop in Hc as [Hc Hcs].
  cbn [brun]. destruct c as [v|v| | |v]; cbn in Hc; try done; cbn [bstep].
  - destruct p as [|p].
    + destruct (brun (us, 0) cs) as [rs [vs' p']] eqn:E.
      pose proof (IH us 0 Hcs) as H. rewrite E in H. done.
    + destruct (brun (us ++ [v], p) cs) as [rs [vs' p']] eqn:E.
      pose proof (IH (us ++ [v]) p Hcs) as H. rewrite E in H. cbn in H |- *.
      rewrite length_app in H. cbn in H. lia.
  - destruct us as [|u us].
    + destruct (brun ([], p) cs) as [rs [vs' p']] eqn:E.
      pose proof (IH [] p Hcs) as H. rewrite E in H. done.
    + destruct (brun (us, S p) cs) as [rs [vs' p']] eqn:E.
      pose proof (IH us (S p) Hcs) as H. rewrite E in H. cbn in H |- *. lia.
  - destruct us as [|u us].
    + destruct (brun ([], p) cs) as [rs [vs' p']] eqn:E.
      pose proof (IH [] p Hcs) as H. rewrite E in H. done.
    + destruct (brun (us, S p) cs) as [rs [vs' p']] eqn:E.
      pose proof (IH us (S p) Hcs) as H. rewrite E in H. cbn in H |- *. lia.
Qed.

End Full.
End SeqFull.

(** ** Further properties of the sequential model *)
Module ExtraClaims.
Import Seq Inv SeqFacts SeqInv Bounded SeqFull Seq.Calls.
Section Extra.
Context {T : Type} `{!Elem T}.

(** X1: one thread calling [enqueue], [try_enqueue], either [try_dequeue]
    and [rewind] on an [MPSCQueue<T>] built with [capacity] gets the replies
    of a bounded queue that starts empty with [capacity] pool blocks
    ([Bounded.brun]); no call goes wrong. *)
Theorem calls_refine_bounded fuel cap (cs : list (call T)) :
  exists s, (MPMCQueue.create (S fuel) cap ≫= fun s0 => run_calls (S fuel) cs s0) =
            Some ((brun ([], cap) cs).1, s).
Proof.
  destruct (reached_at fuel cap cs) as (s & ns & fs & Hs & _). by exists s.
Qed.

(** X2: after construction and any sequence of calls by one thread, the
    heap holds exactly one block per queued value, one per pool block and
    the dummy: no block is leaked and none is shared. *)
Theorem live_blocks_count fuel cap (cs : list (call T)) :
  exists rs s,
    (MPMCQueue.create (S fuel) cap ≫= fun s0 => run_calls (S fuel) cs s0) = Some (rs, s) /\
    size (heap s) = S (length (brun ([], cap) cs).2.1 + (brun ([], cap) cs).2.2).
Proof.
  destruct (reached_at fuel cap cs) as (s & ns & fs & Hs & Hat & Hl).
  exists (brun ([], cap) cs).1, s. split; [done|].
  rewrite (queue_at_size _ _ _ _ Hat), Hl. done.
Qed.

(** X3: on a queue built with [capacity], a run of [try_enqueue] calls
    succeeds for the first [capacity] calls and fails for all the others. *)
Theorem try_enqueue_capacity fuel cap (vs : list T) :
  exists s,
    (MPMCQueue.create (S fuel) cap ≫= fun s0 => run_calls (S fuel) (map TryEnqueue vs) s0) =
    Some (repeat (Done true) (min cap (length vs)) ++
          repeat (Done false) (length vs - cap), s).
Proof.
  destruct (reached_at fuel cap (map TryEnqueue vs)) as (s & ns & fs & Hs & _).
  exists s. by rewrite Hs, brun_try_enqueue.
Qed.


(** X5: on every state one thread reaches, the consumer-side
    [MPSCQueue::try_dequeue] does exactly what the inherited
    [MPMCQueue::try_dequeue] does when its head CAS does not fail
    spuriously: same result, same caller variable, same state. *)
Theorem mpsc_try_dequeue_agrees fuel cap (cs : list (call T)) :
  exists rs s,
    (MPMCQueue.create (S fuel) cap ≫= fun s0 => run_calls (S fuel) cs s0) = Some (rs, s) /\
    forall e, MPMCQueue.try_dequeue_weak (S fuel) [] e s = MPSCQueue.try_dequeue (S fuel) e s.
Proof.
  destruct (reached_at fuel cap cs) as (s & ns & fs & Hs & Hat & _).
  exists (brun ([], cap) cs).1, s. split; [done|]. intros e.
  rewrite <- try_dequeue_weak_nil.
  destruct (brun ([], cap) cs).2.1 as [|v vs].
  - destruct (dequeue_empty_inv fuel s e (queue_at_inv _ _ _ _ Hat)) as [-> ->]. done.
  - destruct (dequeue_at fuel s v vs ns fs e Hat) as (s' & _ & _ & -> & -> & _). done.
Qed.

(** X7: a thread that only calls [try_enqueue] and [try_dequeue] (either
    one) never allocates: the heap keeps the [capacity + 1] blocks the
    constructor made. *)
Theorem try_calls_never_allocate fuel cap (cs : list (call T)) :
  forallb (fun c => negb (allocates c)) cs = true ->
  exists rs s,
    (MPMCQueue.create (S fuel) cap ≫= fun s0 => run_calls (S fuel) cs s0) = Some (rs, s) /\
    size (heap s) = S cap.
Proof.
  intros Hc.
  destruct (reached_at fuel cap cs) as (s & ns & fs & Hs & Hat & Hl).
  exists (brun ([], cap) cs).1, s. split; [done|].
  rewrite (queue_at_size _ _ _ _ Hat), Hl, (brun_conserves [] cap cs Hc). done.
Qed.

(** X6: [push(u)] of a block that only the caller holds, then [pop]:
    [pop] returns [u] and the free list is as before; the one trace left is
    [u]'s [FreeList::Node::next], now the old [top]. *)
Theorem freelist_push_pop fuel s u (b : Block T) :
  heap s !! u = Some b -> refcnt b = 1%Z ->
  (let! _ := FreeList.push (S fuel) u in FreeList.pop (S fuel)) s =
    Some (Some u, set_heap (<[u := set_node_next (top s) b]> (heap s)) s).
Proof.
  intros Hb Hr. unfold FreeList.push.
  assert (Hp : (let! _ := FreeList.release_ref (S fuel) u in ret true) s =
     Some (true, set_top (Some u)
                  (set_heap (<[u := set_refcnt 1 (set_node_next (top s) b)]> (heap s)) s))).
  { pose proof (release_ref_exec fuel s u b Hb) as He. rewrite Hr in He. cbn in He.
    by rewrite (bind_some _ _ _ _ _ He). }
  rewrite (bind_some _ _ _ _ _ Hp).
  rewrite (pop_exec_some fuel _ u (set_refcnt 1 (set_node_next (top s) b))); cycle 1.
  - done.
  - cbn. apply lookup_insert_eq.
  - done.
  - destruct s as [h t hd tl nl], b as [nn r el bn]. cbn in *. subst r. done.
Qed.

End Extra.

(** The free list of the constructed queue is empty; pushing the dummy and
    popping gives it back. *)
Lemma freelist_push_pop_witness :
  heap (constructed_head (T := Z)) !! 0%N = Some (set_block_next None new_block) /\
  refcnt (set_block_next (T := Z) None new_block) = 1%Z /\
  (let! _ := FreeList.push 1 0%N in FreeList.pop 1) (constructed_head (T := Z)) =
    Some (Some 0%N, set_heap (<[0%N := set_node_next None (set_block_next None new_block)]>
                                (heap (constructed_head (T := Z)))) constructed_head).
Proof.
  split; [reflexivity|]. split; [reflexivity|].
  apply (freelist_push_pop 0 constructed_head 0%N (set_block_next None new_block));
    reflexivity.
Defined.

(** A thread that calls [try_enqueue(1)], then [MPMCQueue::try_dequeue]
    and [MPSCQueue::try_dequeue], on a queue of capacity 2. *)
Lemma try_calls_never_allocate_witness :
  forallb (fun c => negb (allocates c)) [TryEnqueue 1%Z; TryDequeue; MpscTryDequeue] = true /\
  exists rs s,
    (MPMCQueue.create 1 2 ≫= fun s0 =>
       run_calls 1 [TryEnqueue 1%Z; TryDequeue; MpscTryDequeue] s0) = Some (rs, s) /\
    size (heap s) = 3.
Proof.
  split; [reflexivity|].
  apply (try_calls_never_allocate 0 2 [TryEnqueue 1%Z; TryDequeue; MpscTryDequeue]).
  reflexivity.
Defined.

End ExtraClaims.
